(** * WalletApi: the ledger executor and the sharded admission service

    A shallow embedding of
      - [internal/model]       (errors, operation types, [Transaction]),
      - [internal/repository]  ([PostgresRepository]: [CreateWallet],
                                [ProcessTransaction], [GetBalance]),
      - [internal/service]     ([walletService]: [NewWalletService],
                                [getShard], [ProcessTransaction],
                                [processTransactions], [Shutdown]),
    followed by the properties of the executor and of the admission path.

    Modelling decisions.
      - [int64] values are integers of [Z] with the two's-complement
        wrap-around of Go's [+] and [-] written out ([Int64.wrap]).
      - The wallets table is a finite map from the row id to the balance.
        A store call may fail (cancelled context, lost connection); which
        calls fail during one repository call is given by a [Faults] record
        that stands for the [ctx] argument and the connection's state.
      - A repository call runs as one atomic step: the row lock taken by
        [SELECT ... FOR UPDATE] serialises the read-modify-write of one
        wallet, and nothing in the repository deletes a row.
      - Goroutines are modelled by their steps between blocking points:
        a channel send or receive either completes, blocks or panics. *)

From Stdlib Require Import ZArith Lia Ascii String.
From stdpp Require Import gmap strings list.

Local Open Scope Z_scope.

(** ** Fixed-width integers *)

Module Int64.

Definition min_int : Z := - 2 ^ 63.
Definition max_int : Z := 2 ^ 63 - 1.

Definition in_range (z : Z) : Prop := min_int ≤ z ≤ max_int.

(** The value an [int64] holds after an operation whose exact result
    is [z]. *)
Definition wrap (z : Z) : Z := (z + 2 ^ 63) mod 2 ^ 64 - 2 ^ 63.

Definition add (a b : Z) : Z := wrap (a + b).
Definition sub (a b : Z) : Z := wrap (a - b).

End Int64.

(** ** package model *)

Inductive error : Type :=
  | ErrWalletNotFound
  | ErrInsufficientFunds
  | ErrInvalidAmount
  | ErrInvalidOperation
  | ErrStore (msg : string).   (* fmt.Errorf("<msg>: %w", err) and raw store errors *)

Definition OperationType : Type := string.
Definition Deposit : OperationType := "DEPOSIT".
Definition Withdraw : OperationType := "WITHDRAW".

Record Transaction : Type := {
  WalletID : string;
  OpType : OperationType;      (* field OperationType *)
  Amount : Z
}.

(** ** The balance store *)

Inductive StoreCall : Type :=
  | CallBeginTx
  | CallQueryExists (id : string)
  | CallQueryBalanceForUpdate (id : string)
  | CallExecUpdate (id : string) (balance : Z)
  | CallCommit
  | CallRollback
  | CallInsert
  | CallQueryBalance (id : string).

(** [rows] is the committed content of table [wallets]; [calls] is the
    history of the calls that reached the store and [committed] the history
    of the row writes made durable by a commit, oldest first. *)
Record DB : Type := {
  rows : gmap string Z;
  calls : list StoreCall;
  committed : list (string * Z)
}.

Definition emptyDB : DB := {| rows := ∅; calls := []; committed := [] |}.

Record Faults : Type := {
  fail_begin : bool;
  fail_exists : bool;
  fail_select : bool;
  fail_update : bool;
  fail_commit : bool
}.

Definition no_faults : Faults :=
  {| fail_begin := false; fail_exists := false; fail_select := false;
     fail_update := false; fail_commit := false |}.

(** What the store does with the [INSERT] of [CreateWallet]: it inserts
    the row, or the scan of the returned id finds no row
    ([sql.ErrNoRows]), or the statement fails. *)
Inductive InsertOutcome : Type :=
  | InsertDone
  | InsertNoRows
  | InsertFailed.

(** An open [*sql.Tx]: the row writes not yet committed, and whether
    [Commit] or [Rollback] has already ended it. *)
Record Tx : Type := {
  pending : list (string * Z);
  finished : bool
}.

(** Store computations thread the store through the calls. *)
Definition Store (A : Type) : Type := DB → A * DB.

Definition sret {A} (a : A) : Store A := λ db, (a, db).
Definition sbind {A B} (m : Store A) (k : A → Store B) : Store B :=
  λ db, let '(a, db') := m db in k a db'.

Notation "x ←ₛ m ;; k" := (sbind m (λ x, k))
  (at level 100, m at next level, right associativity, only parsing).

Definition record_call (c : StoreCall) : Store unit :=
  λ db, (tt, {| rows := rows db; calls := calls db ++ [c];
                committed := committed db |}).

Definition write_row (m : gmap string Z) (w : string * Z) : gmap string Z :=
  <[w.1 := w.2]> m.

(** What a transaction sees: the committed rows under its own writes. *)
Definition tx_view (tx : Tx) (db : DB) : gmap string Z :=
  foldl write_row (rows db) (pending tx).

Definition BeginTx (ctx : Faults) : Store (unit + Tx) :=
  _ ←ₛ record_call CallBeginTx ;;
  if fail_begin ctx then sret (inl tt)
  else sret (inr {| pending := []; finished := false |}).

(** [SELECT EXISTS(SELECT 1 FROM wallets WHERE id = $1)] *)
Definition QueryExists (ctx : Faults) (tx : Tx) (id : string)
  : Store (unit + bool) :=
  _ ←ₛ record_call (CallQueryExists id) ;;
  if fail_exists ctx then sret (inl tt)
  else λ db, (inr (bool_decide (is_Some (tx_view tx db !! id))), db).

(** [SELECT balance FROM wallets WHERE id = $1 FOR UPDATE]; scanning an
    empty result is the error [sql.ErrNoRows]. *)
Definition QueryBalanceForUpdate (ctx : Faults) (tx : Tx) (id : string)
  : Store (unit + Z) :=
  _ ←ₛ record_call (CallQueryBalanceForUpdate id) ;;
  if fail_select ctx then sret (inl tt)
  else λ db, (match tx_view tx db !! id with
              | Some b => inr b
              | None => inl tt
              end, db).

(** [UPDATE wallets SET balance = $1 WHERE id = $2]; a missing row is
    no error, the statement then changes nothing. *)
Definition ExecUpdate (ctx : Faults) (tx : Tx) (id : string) (v : Z)
  : Store (unit + Tx) :=
  _ ←ₛ record_call (CallExecUpdate id v) ;;
  if fail_update ctx then sret (inl tt)
  else λ db,
    (inr (if bool_decide (is_Some (tx_view tx db !! id))
          then {| pending := pending tx ++ [(id, v)]; finished := finished tx |}
          else tx), db).

(** [tx.Commit()]: the transaction is over either way; its writes reach
    the table only when the commit succeeds.  On a transaction already
    ended it returns [sql.ErrTxDone] without a call to the store. *)
Definition Commit (ctx : Faults) (tx : Tx) : Store ((unit + unit) * Tx) :=
  if finished tx then sret (inl tt, tx) else
  _ ←ₛ record_call CallCommit ;;
  let ended := {| pending := []; finished := true |} in
  if fail_commit ctx then sret (inl tt, ended)
  else λ db, ((inr tt, ended),
              {| rows := tx_view tx db; calls := calls db;
                 committed := committed db ++ pending tx |}).

(** [tx.Rollback()]: on a transaction already ended it returns
    [sql.ErrTxDone] without a call to the store. *)
Definition Rollback (tx : Tx) : Store unit :=
  if finished tx then sret tt else record_call CallRollback.

(** ** package repository: PostgresRepository *)

Module repository.

(** The part of [ProcessTransaction] that runs between
    [defer tx.Rollback()] and the return: it yields the returned error
    and the transaction as the deferred call finds it. *)
Definition processInTx (ctx : Faults) (walletID : string) (amount : Z)
    (isDeposit : bool) (tx : Tx) : Store (option error * Tx) :=
  (* 1. Checking the wallet's existence *)
  r ←ₛ QueryExists ctx tx walletID ;;
  match r with
  | inl _ => sret (Some (ErrStore "wallet existence check failed"), tx)
  | inr exists_ =>
    if negb exists_ then sret (Some ErrWalletNotFound, tx) else
    (* 2. Getting the current balance with the lock *)
    r ←ₛ QueryBalanceForUpdate ctx tx walletID ;;
    match r with
    | inl _ => sret (Some (ErrStore "failed to get balance"), tx)
    | inr balance =>
      (* 3. We check whether there are enough funds to debit *)
      if negb isDeposit && (balance <? amount)
      then sret (Some ErrInsufficientFunds, tx) else
      (* 4. Calculating the new balance *)
      let newBalance :=
        if isDeposit then Int64.add balance amount
        else Int64.sub balance amount in
      (* 5. Updating the balance *)
      r ←ₛ ExecUpdate ctx tx walletID newBalance ;;
      match r with
      | inl _ => sret (Some (ErrStore "balance update failed"), tx)
      | inr tx' =>
        (* 6. Fixing the transaction *)
        r ←ₛ Commit ctx tx' ;;
        match r.1 with
        | inl _ => sret (Some (ErrStore "transaction commit failed"), r.2)
        | inr _ => sret (None, r.2)
        end
      end
    end
  end.

Definition ProcessTransaction (ctx : Faults) (walletID : string)
    (amount : Z) (isDeposit : bool) : Store (option error) :=
  (* Validation of the amount *)
  if amount <=? 0 then sret (Some ErrInvalidAmount) else
  r ←ₛ BeginTx ctx ;;
  match r with
  | inl _ => sret (Some (ErrStore "failed to begin transaction"))
  | inr tx =>
    r ←ₛ processInTx ctx walletID amount isDeposit tx ;;
    _ ←ₛ Rollback r.2 ;;          (* defer tx.Rollback() *)
    sret r.1
  end.

(** [INSERT INTO wallets (balance) VALUES (0) RETURNING id::text]: the
    store generates the id; [newID] is the one it generates for this
    call.  The statement runs outside a transaction and is committed on
    its own; an id already in use violates the primary key. *)
Definition CreateWallet (o : InsertOutcome) (newID : string)
  : Store (error + string) :=
  _ ←ₛ record_call CallInsert ;;
  match o with
  | InsertNoRows => sret (inl ErrWalletNotFound)
  | InsertFailed => sret (inl (ErrStore "failed to create wallet"))
  | InsertDone => λ db,
    match rows db !! newID with
    | Some _ => (inl (ErrStore "failed to create wallet"), db)
    | None => (inr newID, {| rows := <[newID := 0]> (rows db);
                             calls := calls db;
                             committed := committed db ++ [(newID, 0)] |})
    end
  end.

(** [SELECT balance FROM wallets WHERE id = $1] *)
Definition GetBalance (fail_query : bool) (walletID : string)
  : Store (error + Z) :=
  _ ←ₛ record_call (CallQueryBalance walletID) ;;
  if fail_query then sret (inl (ErrStore ""))    (* the error as it came *)
  else λ db, (match rows db !! walletID with
              | Some b => inr b
              | None => inl ErrWalletNotFound
              end, db).

End repository.

(** ** Channels *)

Record chan (A : Type) : Type := {
  buf : list A;        (* the values sent and not yet received, oldest first *)
  cap : Z;
  closed : bool
}.
Arguments buf {A} _.
Arguments cap {A} _.
Arguments closed {A} _.

Inductive send_result (A : Type) : Type :=
  | SendOk (c : chan A)
  | SendBlocks
  | SendPanics.                (* send on closed channel *)
Arguments SendOk {A} _.
Arguments SendBlocks {A}.
Arguments SendPanics {A}.

Inductive recv_result (A : Type) : Type :=
  | RecvOk (v : A) (c : chan A)
  | RecvBlocks
  | RecvClosed.                (* closed and drained: a range loop ends *)
Arguments RecvOk {A} _ _.
Arguments RecvBlocks {A}.
Arguments RecvClosed {A}.

Definition make_chan (A : Type) (n : Z) : chan A :=
  {| buf := []; cap := n; closed := false |}.

Definition chan_send {A} (c : chan A) (v : A) : send_result A :=
  if closed c then SendPanics
  else if Z.of_nat (length (buf c)) <? cap c
       then SendOk {| buf := buf c ++ [v]; cap := cap c; closed := false |}
       else SendBlocks.

Definition chan_recv {A} (c : chan A) : recv_result A :=
  match buf c with
  | v :: rest => RecvOk v {| buf := rest; cap := cap c; closed := closed c |}
  | [] => if closed c then RecvClosed else RecvBlocks
  end.

(** [close(c)]; closing a closed channel panics. *)
Definition chan_close {A} (c : chan A) : option (chan A) :=
  if closed c then None
  else Some {| buf := buf c; cap := cap c; closed := true |}.

(** ** hash/fnv: the 32-bit FNV-1a hash *)

Module fnv.

Definition offset32 : Z := 2166136261.
Definition prime32 : Z := 16777619.

Definition byte_val (c : ascii) : Z := Z.of_N (N_of_ascii c).

Definition New32a : Z := offset32.

Definition Write (h : Z) (data : list ascii) : Z :=
  foldl (λ h c, (Z.lxor h (byte_val c) * prime32) mod 2 ^ 32) h data.

Definition Sum32 (h : Z) : Z := h.

End fnv.

(** ** package service *)

(** What a Go call yields besides blocking: a value or a run-time panic. *)
Inductive go (A : Type) : Type :=
  | Ok (a : A)
  | Panic (msg : string).
Arguments Ok {A} _.
Arguments Panic {A} _.

Record transactionRequest : Type := {
  ctx : Faults;
  t : Transaction;
  result : nat               (* the result channel, by its address *)
}.

(** The struct [walletService], with the store behind [repo] and, in
    [replies], the result channels made so far ([result] addresses them
    by index). *)
Record walletService : Type := {
  repo : DB;
  queues : list (chan transactionRequest);
  workers : Z;
  wg : nat;
  replies : list (chan (option error))
}.

Definition set_repo (db : DB) (s : walletService) : walletService :=
  {| repo := db; queues := queues s; workers := workers s; wg := wg s;
     replies := replies s |}.
Definition set_queues (qs : list (chan transactionRequest))
    (s : walletService) : walletService :=
  {| repo := repo s; queues := qs; workers := workers s; wg := wg s;
     replies := replies s |}.
Definition set_wg (n : nat) (s : walletService) : walletService :=
  {| repo := repo s; queues := queues s; workers := workers s; wg := n;
     replies := replies s |}.
Definition set_replies (rs : list (chan (option error)))
    (s : walletService) : walletService :=
  {| repo := repo s; queues := queues s; workers := workers s; wg := wg s;
     replies := rs |}.

(** [int(x)] for a [uint32] [x], where [int] has [intSize] bits. *)
Definition to_int (intSize : Z) (x : Z) : Z :=
  (x + 2 ^ (intSize - 1)) mod 2 ^ intSize - 2 ^ (intSize - 1).

Section Service.

(** The width of Go's [int] on the platform the service is built for. *)
Variable intSize : Z.

(** [make([]chan transactionRequest, workers)] panics on a negative
    length; one worker goroutine is started per queue. *)
Definition NewWalletService (db : DB) (n : Z) : go walletService :=
  if n <? 0 then Panic "makeslice: len out of range"
  else Ok {| repo := db;
             queues := replicate (Z.to_nat n) (make_chan transactionRequest 10000);
             workers := n;
             wg := Z.to_nat n;
             replies := [] |}.

(** Go's [%] truncates towards zero and panics on a zero divisor. *)
Definition getShard (walletID : string) (s : walletService)
  : go Z * walletService :=
  let h := fnv.New32a in
  let h := fnv.Write h (list_ascii_of_string walletID) in
  if workers s =? 0 then (Panic "integer divide by zero", s)
  else (Ok (Z.rem (to_int intSize (fnv.Sum32 h)) (workers s)), s).

(** [ProcessTransaction] up to and including the send on the lane's
    queue (its first blocking point). *)
Inductive sent : Type :=
  | Returned (e : error)         (* the call has returned [e] *)
  | Enqueued (resultChan : nat)  (* the request is on its lane *)
  | SendBlocked                  (* the lane's queue is full *)
  | Panicked (msg : string).

Definition ProcessTransaction_send (c : Faults) (tr : Transaction)
    (s : walletService) : sent * walletService :=
  if Amount tr <=? 0 then (Returned ErrInvalidAmount, s) else
  match getShard (WalletID tr) s with
  | (Panic m, s) => (Panicked m, s)
  | (Ok shard, s) =>
    let resultChan := length (replies s) in
    let s := set_replies (replies s ++ [make_chan (option error) 1]) s in
    let req := {| ctx := c; t := tr; result := resultChan |} in
    if shard <? 0 then (Panicked "index out of range", s) else
    match queues s !! Z.to_nat shard with
    | None => (Panicked "index out of range", s)
    | Some q =>
      match chan_send q req with
      | SendOk q' =>
          (Enqueued resultChan,
           set_queues (<[Z.to_nat shard := q']> (queues s)) s)
      | SendBlocks => (SendBlocked, s)
      | SendPanics => (Panicked "send on closed channel", s)
      end
    end
  end.

(** [return <-resultChan]: [None] while no result has been delivered. *)
Definition ProcessTransaction_recv (resultChan : nat) (s : walletService)
  : option (option error) * walletService :=
  match replies s !! resultChan with
  | None => (None, s)
  | Some rc =>
    match chan_recv rc with
    | RecvOk e rc' => (Some e, set_replies (<[resultChan := rc']> (replies s)) s)
    | RecvBlocks => (None, s)
    | RecvClosed => (Some None, s)
    end
  end.

(** One iteration of the worker's [for req := range s.queues[shardIndex]]. *)
Inductive worked : Type :=
  | Delivered (req : transactionRequest) (e : option error)
  | WorkerBlocked
  | WorkerExit                   (* the loop ended, [wg.Done()] has run *)
  | WorkerPanicked (msg : string).

(** The [switch req.t.OperationType] of the loop body. *)
Definition processTransactions_switch (req : transactionRequest)
  : Store (option error) :=
  if String.eqb (OpType (t req)) Deposit then
    repository.ProcessTransaction (ctx req) (WalletID (t req))
      (Amount (t req)) true
  else if String.eqb (OpType (t req)) Withdraw then
    repository.ProcessTransaction (ctx req) (WalletID (t req))
      (Amount (t req)) false
  else sret (Some ErrInvalidOperation).

Definition processTransactions_iter (shardIndex : nat) (s : walletService)
  : worked * walletService :=
  match queues s !! shardIndex with
  | None => (WorkerPanicked "index out of range", s)
  | Some q =>
    match chan_recv q with
    | RecvBlocks => (WorkerBlocked, s)
    | RecvClosed => (WorkerExit, set_wg (pred (wg s)) s)
    | RecvOk req q' =>
      let s := set_queues (<[shardIndex := q']> (queues s)) s in
      let r := processTransactions_switch req (repo s) in
      let s := set_repo r.2 s in
      (* req.result <- err *)
      match replies s !! result req with
      | None => (WorkerPanicked "send on nil channel", s)
      | Some rc =>
        match chan_send rc r.1 with
        | SendOk rc' =>
            (Delivered req r.1,
             set_replies (<[result req := rc']> (replies s)) s)
        | SendBlocks => (WorkerBlocked, s)
        | SendPanics => (WorkerPanicked "send on closed channel", s)
        end
      end
    end
  end.

(** [Shutdown]: the loop closing every queue, then [s.wg.Wait()]. *)
Fixpoint close_all {A} (qs : list (chan A)) : go (list (chan A)) :=
  match qs with
  | [] => Ok []
  | q :: rest =>
    match chan_close q with
    | None => Panic "close of closed channel"
    | Some q' =>
      match close_all rest with
      | Ok rest' => Ok (q' :: rest')
      | Panic m => Panic m
      end
    end
  end.

Definition Shutdown_close (s : walletService) : go walletService :=
  match close_all (queues s) with
  | Ok qs => Ok (set_queues qs s)
  | Panic m => Panic m
  end.

(** [s.wg.Wait()] returns once every worker has left its loop. *)
Definition Shutdown_wait (s : walletService) : bool :=
  bool_decide (wg s = 0%nat).

End Service.

(** ** Histories of repository calls *)

(** The calls a client can make the repository execute, each with what
    the store does during the call. *)
Inductive Op : Type :=
  | OpCreate (o : InsertOutcome) (newID : string)
  | OpProcess (ctx : Faults) (walletID : string) (amount : Z) (isDeposit : bool).

Definition exec (o : Op) (db : DB) : DB :=
  match o with
  | OpCreate f id => (repository.CreateWallet f id db).2
  | OpProcess c w a d => (repository.ProcessTransaction c w a d db).2
  end.

Definition run (ops : list Op) (db : DB) : DB := foldl (flip exec) db ops.

(** Amounts are [int64] values. *)
Definition op_in_range (o : Op) : Prop :=
  match o with
  | OpCreate _ _ => True
  | OpProcess _ _ a _ => Int64.in_range a
  end.

Definition is_debit (o : Op) : bool :=
  match o with
  | OpProcess _ _ _ false => true
  | _ => false
  end.

(** A credit fits when the sum of the balance it finds and its amount is
    still an [int64]; every other call fits. *)
Definition fits (o : Op) (db : DB) : bool :=
  match o with
  | OpProcess _ w a true =>
      match rows db !! w with
      | Some b => b + a <=? Int64.max_int
      | None => true
      end
  | _ => true
  end.

Fixpoint all_fit (ops : list Op) (db : DB) : bool :=
  match ops with
  | [] => true
  | o :: rest => fits o db && all_fit rest (exec o db)
  end.

(** Every stored balance is an [int64] (the column type). *)
Definition balances_in_range (db : DB) : Prop :=
  ∀ id b, rows db !! id = Some b → Int64.in_range b.

Definition nonneg (db : DB) : Prop :=
  ∀ id b, rows db !! id = Some b → 0 ≤ b.

(** The outcomes that reject a request. *)
Definition is_rejection (e : error) : bool :=
  match e with
  | ErrInvalidAmount | ErrInvalidOperation
  | ErrWalletNotFound | ErrInsufficientFunds => true
  | ErrStore _ => false
  end.

(** Every lane queue has been closed, as [Shutdown] leaves them. *)
Definition lanes_closed (s : walletService) : Prop :=
  Forall (λ q, closed q = true) (queues s).

(** The service owns one queue per worker. *)
Definition lanes_match (s : walletService) : Prop :=
  length (queues s) = Z.to_nat (workers s).

(** An unsigned 64-bit pattern read as a signed number. *)
Definition signed64 (u : Z) : Z := if u <? 2 ^ 63 then u else u - 2 ^ 64.

(** The store after the calls [cs] have reached it and the writes [ws]
    have been committed. *)
Definition db_after (db : DB) (cs : list StoreCall) (ws : list (string * Z)) : DB :=
  {| rows := foldl write_row (rows db) ws;
     calls := calls db ++ cs;
     committed := committed db ++ ws |}.

(** Step 4 of the repository's [ProcessTransaction]. *)
Definition newBalance (isDeposit : bool) (b a : Z) : Z :=
  if isDeposit then Int64.add b a else Int64.sub b a.

(** ** Concrete stores, histories and services *)

Definition db_of (w : string) (b : Z) : DB :=
  {| rows := {[ w := b ]}; calls := []; committed := [] |}.

Definition overflow_ops : list Op :=
  [ OpCreate InsertDone "w";
    OpProcess no_faults "w" Int64.max_int true;
    OpProcess no_faults "w" 1 true ].

Definition small_ops : list Op :=
  [ OpCreate InsertDone "w";
    OpProcess no_faults "w" 100 true;
    OpProcess no_faults "w" 30 false;
    OpProcess no_faults "w" 500 false ].

Definition deposit100 : Transaction :=
  {| WalletID := "wallet-1"; OpType := Deposit; Amount := 100 |}.

Definition bad_kind : Transaction :=
  {| WalletID := "wallet-1"; OpType := "INVALID_OPERATION"; Amount := 100 |}.

Definition bad_amount : Transaction :=
  {| WalletID := "wallet-1"; OpType := Deposit; Amount := -50 |}.

Definition service1 : walletService :=
  {| repo := emptyDB;
     queues := [make_chan transactionRequest 10000];
     workers := 1;
     wg := 1;
     replies := [] |}.

Definition service1_closed : walletService :=
  {| repo := emptyDB;
     queues := [{| buf := []; cap := 10000; closed := true |}];
     workers := 1;
     wg := 1;
     replies := [] |}.

Definition service16 : walletService :=
  {| repo := emptyDB;
     queues := replicate 16 (make_chan transactionRequest 10000);
     workers := 16;
     wg := 16;
     replies := [] |}.

Definition service16_busy : walletService :=
  (ProcessTransaction_send 64 no_faults deposit100
     (set_repo (db_of "w" 5) service16)).2.

(** ** Further definitions for the repository *)

Definition sumZ (l : list Z) : Z := foldr Z.add 0 l.

(** The history that credits the wallet [w] with the amounts [l], one
    call after the other, every store call succeeding. *)
Definition credits (w : string) (l : list Z) : list Op :=
  (λ a, OpProcess no_faults w a true) <$> l.

(** The store calls that begin or end a transaction. *)
Definition is_tx_boundary (c : StoreCall) : bool :=
  match c with
  | CallBeginTx | CallCommit | CallRollback => true
  | _ => false
  end.

(** ** Further definitions for the service *)

(** The requests waiting on the lanes, lane by lane. *)
Definition queued (s : walletService) : list transactionRequest :=
  concat (buf <$> queues s).

(** The result channel of a request is there, open and empty, with room
    for the answer: as [make(chan error, 1)] left it. *)
Definition reply_ready (s : walletService) (req : transactionRequest) : Prop :=
  ∃ rc, replies s !! result req = Some rc
        ∧ buf rc = [] ∧ closed rc = false ∧ 0 < cap rc.

(** Every waiting request has its own result channel, ready. *)
Definition replies_ready (s : walletService) : Prop :=
  NoDup (result <$> queued s) ∧ Forall (reply_ready s) (queued s).

(** No lane holds more requests than its capacity. *)
Definition lanes_bounded (s : walletService) : Prop :=
  Forall (λ q, Z.of_nat (length (buf q)) ≤ cap q) (queues s).

(** How the worker's loop ends; [LoopOutOfFuel] when the iterations
    allowed are used up before it does. *)
Inductive loop_end : Type :=
  | LoopExit
  | LoopBlocked
  | LoopPanicked (msg : string)
  | LoopOutOfFuel.

(** [processTransactions]: the iterations of the [range] loop, one after
    the other, until the worker blocks, returns or panics. *)
Fixpoint processTransactions (fuel : nat) (shardIndex : nat)
    (s : walletService) : loop_end * walletService :=
  match fuel with
  | O => (LoopOutOfFuel, s)
  | S fuel' =>
    match processTransactions_iter shardIndex s with
    | (Delivered _ _, s') => processTransactions fuel' shardIndex s'
    | (WorkerBlocked, s') => (LoopBlocked, s')
    | (WorkerExit, s') => (LoopExit, s')
    | (WorkerPanicked m, s') => (LoopPanicked m, s')
    end
  end.

(** The requests [reqs] served on the store one after the other: the
    answers, in the same order, and the store they leave. *)
Fixpoint serve (reqs : list transactionRequest) (db : DB)
  : list (option error) * DB :=
  match reqs with
  | [] => ([], db)
  | req :: rest =>
    let x := processTransactions_switch req db in
    let y := serve rest x.2 in
    (x.1 :: y.1, y.2)
  end.

Definition withdraw30 : Transaction :=
  {| WalletID := "wallet-1"; OpType := Withdraw; Amount := 30 |}.

(** One lane holding a credit of 100 and a debit of 30 for the same
    wallet, closed by [Shutdown] before the worker has run. *)
Definition service1_backlog : walletService :=
  {| repo := db_of "wallet-1" 0;
     queues := [{| buf := [{| ctx := no_faults; t := deposit100; result := 0 |};
                           {| ctx := no_faults; t := withdraw30; result := 1 |}];
                   cap := 10000; closed := true |}];
     workers := 1;
     wg := 1;
     replies := [make_chan (option error) 1; make_chan (option error) 1] |}.

(** ** package strings: the two functions the handler uses *)

Module gostrings.

(** [len(s) >= len(prefix) && s[:len(prefix)] == prefix] *)
Definition HasPrefix (s prefix : string) : bool :=
  let l := list_ascii_of_string s in
  let p := list_ascii_of_string prefix in
  (length p <=? length l)%nat && bool_decide (take (length p) l = p).

(** [len(s) >= len(suffix) && s[len(s)-len(suffix):] == suffix] *)
Definition HasSuffix (s suffix : string) : bool :=
  let l := list_ascii_of_string s in
  let x := list_ascii_of_string suffix in
  (length x <=? length l)%nat
  && bool_decide (drop (length l - length x) l = x).

Definition TrimPrefix (s prefix : string) : string :=
  if HasPrefix s prefix
  then string_of_list_ascii
         (drop (length (list_ascii_of_string prefix)) (list_ascii_of_string s))
  else s.

Definition TrimSuffix (s suffix : string) : string :=
  if HasSuffix s suffix
  then string_of_list_ascii
         (take (length (list_ascii_of_string s)
                - length (list_ascii_of_string suffix))
               (list_ascii_of_string s))
  else s.

End gostrings.

(** ** package service: the methods that only pass the call on *)

Definition service_GetBalance (fail_query : bool) (walletID : string)
    (s : walletService) : (error + Z) * walletService :=
  let r := repository.GetBalance fail_query walletID (repo s) in
  (r.1, set_repo r.2 s).

Definition service_CreateWallet (o : InsertOutcome) (newID : string)
    (s : walletService) : (error + string) * walletService :=
  let r := repository.CreateWallet o newID (repo s) in
  (r.1, set_repo r.2 s).

(** ** package handler *)

Module handler.

(** The JSON written to the response: [{"error": {"code", "message"}}]
    or [{"data": ...}] with a [map[string]string] or a
    [map[string]int64]. *)
Inductive Payload : Type :=
  | ErrorPayload (code : Z) (message : string)
  | StringData (data : gmap string string)
  | IntData (data : gmap string Z).

Record Response : Type := {
  statusCode : Z;
  payload : Payload
}.

(** What the handler reads of a request: the URL path, and the body as
    [json.NewDecoder(r.Body).Decode(&t)] leaves it ([None] when the
    decoding fails). *)
Record Request : Type := {
  Path : string;
  Decoded : option Transaction
}.

Definition sendErrorResponse (message : string) (code : Z) : Response :=
  {| statusCode := code; payload := ErrorPayload code message |}.

Definition sendSuccessResponse (data : Payload) : Response :=
  {| statusCode := 200; payload := data |}.

Section Handler.

(** [uuid.Parse] succeeds, [strconv.FormatInt(_, 10)] and [err.Error()]. *)
Variable uuid_Parse : string → bool.
Variable FormatInt : Z → string.
Variable Error : error → string.

(** The [service.WalletService] behind the handler, with its state. *)
Variable Svc : Type.
Variable svcCreateWallet : Svc → (error + string) * Svc.
Variable svcProcessTransaction : Transaction → Svc → option error * Svc.
Variable svcGetBalance : string → Svc → (error + Z) * Svc.

Definition CreateWallet (s : Svc) : Response * Svc :=
  match svcCreateWallet s with
  | (inl _, s') => (sendErrorResponse "Failed to create wallet" 500, s')
  | (inr walletID, s') =>
      (sendSuccessResponse (StringData {[ "walletId" := walletID ]}), s')
  end.

(** The end of [HandleTransaction]: the response for what the service
    returned. *)
Definition transactionResponse (walletID : string) (tr : Transaction)
    (err : option error) : Response :=
  match err with
  | Some ErrWalletNotFound => sendErrorResponse "Wallet not found" 404
  | Some ErrInsufficientFunds => sendErrorResponse "Insufficient funds" 409
  | Some ErrInvalidAmount => sendErrorResponse "Invalid amount" 400
  | Some e => sendErrorResponse ("Transaction failed: " +:+ Error e) 500
  | None =>
      sendSuccessResponse
        (StringData (<["status" := "completed"]>
                     (<["walletId" := walletID]>
                      (<["operation" := OpType tr]>
                       (<["amount" := FormatInt (Amount tr)]> ∅)))))
  end.

(** The wallet id [HandleTransaction] takes from the URL. *)
Definition transactionWalletID (path : string) : string :=
  gostrings.TrimSuffix (gostrings.TrimPrefix path "/api/v1/wallets/")
    "/transactions".

Definition HandleTransaction (r : Request) (s : Svc) : Response * Svc :=
  (* Extracting the walletID from the URL *)
  let walletID := transactionWalletID (Path r) in
  if negb (uuid_Parse walletID)
  then (sendErrorResponse "Invalid wallet ID format" 400, s) else
  (* Parsing the request body *)
  match Decoded r with
  | None => (sendErrorResponse "Invalid JSON format" 400, s)
  | Some tr =>
    (* Validation of fields *)
    if negb (String.eqb (OpType tr) Deposit)
       && negb (String.eqb (OpType tr) Withdraw)
    then (sendErrorResponse "Invalid operation type" 400, s) else
    if Amount tr <=? 0
    then (sendErrorResponse "Amount must be positive" 400, s) else
    (* Setting the walletID from the URL *)
    let tr := {| WalletID := walletID; OpType := OpType tr;
                 Amount := Amount tr |} in
    (* Processing the transaction *)
    let out := svcProcessTransaction tr s in
    (transactionResponse walletID tr out.1, out.2)
  end.

Definition HandleGetBalance (r : Request) (s : Svc) : Response * Svc :=
  let walletID := gostrings.TrimPrefix (Path r) "/api/v1/wallets/" in
  if negb (uuid_Parse walletID)
  then (sendErrorResponse "Invalid wallet ID" 400, s) else
  match svcGetBalance walletID s with
  | (inl ErrWalletNotFound, s') => (sendErrorResponse "Wallet not found" 404, s')
  | (inl _, s') => (sendErrorResponse "Failed to get balance" 500, s')
  | (inr balance, s') =>
      (sendSuccessResponse (IntData {[ "balance" := balance ]}), s')
  end.

End Handler.

End handler.

(** * Properties *)

(** ** Sanity checks of the hash *)

Example fnv_a : fnv.Write fnv.New32a (list_ascii_of_string "a") = 3826002220.
Proof. vm_compute. reflexivity. Qed.
Example fnv_foobar :
  fnv.Write fnv.New32a (list_ascii_of_string "foobar") = 3214735720.
Proof. vm_compute. reflexivity. Qed.

(** ** Arithmetic of [int64] *)

Lemma wrap_in_range z : Int64.in_range (Int64.wrap z).
Proof.
  unfold Int64.in_range, Int64.wrap, Int64.min_int, Int64.max_int.
  pose proof (Z.mod_pos_bound (z + 2 ^ 63) (2 ^ 64) ltac:(lia)). lia.
Qed.

Lemma wrap_id z : Int64.in_range z → Int64.wrap z = z.
Proof.
  unfold Int64.in_range, Int64.wrap, Int64.min_int, Int64.max_int. intros H.
  rewrite Z.mod_small; lia.
Qed.

Lemma wrap_overflow z :
  Int64.max_int < z ≤ 2 * Int64.max_int + 1 → Int64.wrap z = z - 2 ^ 64.
Proof.
  unfold Int64.wrap, Int64.max_int. intros H.
  replace (z + 2 ^ 63) with (z - 2 ^ 63 + 1 * 2 ^ 64) by lia.
  rewrite Z.mod_add by lia. rewrite Z.mod_small; lia.
Qed.

Lemma wrap_signed64 z : Int64.wrap z = signed64 (z mod 2 ^ 64).
Proof.
  unfold Int64.wrap, signed64.
  pose proof (Z.mod_pos_bound z (2 ^ 64) ltac:(lia)) as Hz.
  destruct (Z.ltb_spec (z mod 2 ^ 64) (2 ^ 63)) as [Hlt | Hge].
  - rewrite <- (Zplus_mod_idemp_l z). rewrite Z.mod_small; lia.
  - rewrite <- (Zplus_mod_idemp_l z).
    replace (z mod 2 ^ 64 + 2 ^ 63)
      with (z mod 2 ^ 64 - 2 ^ 63 + 1 * 2 ^ 64) by lia.
    rewrite Z.mod_add by lia. rewrite Z.mod_small; lia.
Qed.

(** ** The executor, path by path *)

Ltac run_store :=
  unfold repository.ProcessTransaction, repository.processInTx, BeginTx,
    QueryExists,
    QueryBalanceForUpdate, ExecUpdate, Commit, Rollback, record_call,
    sbind, sret, tx_view, write_row; simpl.

Ltac same_db :=
  unfold db_after; simpl; rewrite ?app_nil_r, <- ?app_assoc; reflexivity.

Lemma db_after_nil_rows db cs : rows (db_after db cs []) = rows db.
Proof. reflexivity. Qed.

Lemma process_invalid_amount c w a d db :
  a ≤ 0 → repository.ProcessTransaction c w a d db = (Some ErrInvalidAmount, db).
Proof.
  intros Ha. unfold repository.ProcessTransaction.
  destruct (Z.leb_spec a 0); [reflexivity | lia].
Qed.

Lemma process_not_found c w a d db :
  0 < a → rows db !! w = None →
  fail_begin c = false → fail_exists c = false →
  repository.ProcessTransaction c w a d db
  = (Some ErrWalletNotFound,
     db_after db [CallBeginTx; CallQueryExists w; CallRollback] []).
Proof.
  intros Ha Hw Hb He. run_store.
  destruct (Z.leb_spec a 0); [lia |].
  rewrite Hb, He. simpl. rewrite Hw. simpl.
  same_db.
Qed.

Lemma process_insufficient c w a b db :
  0 < a → rows db !! w = Some b → b < a →
  fail_begin c = false → fail_exists c = false → fail_select c = false →
  repository.ProcessTransaction c w a false db
  = (Some ErrInsufficientFunds,
     db_after db [CallBeginTx; CallQueryExists w;
                  CallQueryBalanceForUpdate w; CallRollback] []).
Proof.
  intros Ha Hw Hlt Hb He Hs. run_store.
  destruct (Z.leb_spec a 0); [lia |].
  rewrite Hb, He, Hs. simpl. repeat (rewrite Hw; simpl).
  destruct (Z.ltb_spec b a); [| lia]. simpl.
  same_db.
Qed.

Lemma process_commits w a b d db :
  0 < a → rows db !! w = Some b → (d = false → a ≤ b) →
  repository.ProcessTransaction no_faults w a d db
  = (None,
     db_after db [CallBeginTx; CallQueryExists w; CallQueryBalanceForUpdate w;
                  CallExecUpdate w (newBalance d b a); CallCommit]
                 [(w, newBalance d b a)]).
Proof.
  intros Ha Hw Hd. run_store.
  destruct (Z.leb_spec a 0); [lia |].
  repeat (rewrite Hw; simpl).
  assert (negb d && (b <? a) = false) as ->.
  { destruct d; [reflexivity |]. simpl. apply Z.ltb_ge. auto. }
  simpl. repeat (rewrite Hw; simpl).
  unfold newBalance. same_db.
Qed.

(** Whatever the store does, a repository call either leaves the table
    as it was and reports an error, or commits the one new balance. *)
Lemma process_cases c w a d db :
  let r := repository.ProcessTransaction c w a d db in
  (r.1 ≠ None ∧ rows r.2 = rows db ∧ committed r.2 = committed db)
  ∨ (∃ b, rows db !! w = Some b ∧ 0 < a ∧ (d = false → a ≤ b) ∧
          r.1 = None ∧
          rows r.2 = <[w := newBalance d b a]> (rows db) ∧
          committed r.2 = committed db ++ [(w, newBalance d b a)]).
Proof.
  run_store.
  destruct (Z.leb_spec a 0) as [Ha | Ha]; [by left |].
  destruct (rows db !! w) as [b |] eqn:Hw.
  2: { destruct (fail_begin c); simpl; [by left |].
       destruct (fail_exists c); simpl; [by left |].
       rewrite Hw. simpl. by left. }
  destruct (fail_begin c); simpl; [by left |].
  destruct (fail_exists c); simpl; [by left |].
  rewrite ?Hw; simpl.
  destruct (fail_select c); simpl; [by left |].
  rewrite ?Hw; simpl.
  destruct (negb d && (b <? a)) eqn:Hfunds; simpl; [by left |].
  destruct (fail_update c); simpl; [by left |].
  rewrite ?Hw; simpl.
  destruct (fail_commit c); simpl; [by left |].
  right. exists b. repeat split; try done.
  intros ->. simpl in Hfunds. by apply Z.ltb_ge.
Qed.

Lemma process_error_keeps_rows c w a d db e :
  (repository.ProcessTransaction c w a d db).1 = Some e →
  rows (repository.ProcessTransaction c w a d db).2 = rows db
  ∧ committed (repository.ProcessTransaction c w a d db).2 = committed db.
Proof.
  intros He. destruct (process_cases c w a d db) as [(_ & Hr & Hc) | (b & H)].
  - done.
  - destruct H as (_ & _ & _ & Hnone & _). congruence.
Qed.

Lemma create_cases f id db :
  rows (repository.CreateWallet f id db).2 = rows db
  ∨ (rows db !! id = None ∧
     rows (repository.CreateWallet f id db).2 = <[id := 0]> (rows db)).
Proof.
  unfold repository.CreateWallet, sbind, sret, record_call. simpl.
  destruct f; simpl; [| by left | by left].
  destruct (rows db !! id) eqn:Hid; simpl; [by left | by right].
Qed.

(** ** Reachable balances *)

Lemma exec_in_range o db :
  balances_in_range db → balances_in_range (exec o db).
Proof.
  intros Hr. unfold balances_in_range.
  destruct o as [f id | c w a d]; cbn [exec].
  - destruct (create_cases f id db) as [-> | [_ ->]]; [done |].
    intros k v. rewrite lookup_insert. case_decide; [| by apply Hr].
    intros [= <-]. by vm_compute.
  - destruct (process_cases c w a d db) as [(_ & -> & _) | (b & H)]; [done |].
    destruct H as (_ & _ & _ & _ & -> & _).
    intros k v. rewrite lookup_insert. case_decide; [| by apply Hr].
    intros [= <-]. unfold newBalance, Int64.add, Int64.sub.
    destruct d; apply wrap_in_range.
Qed.

Lemma exec_nonneg o db :
  balances_in_range db → nonneg db → fits o db = true → nonneg (exec o db).
Proof.
  intros Hr Hn Hfit. unfold nonneg.
  destruct o as [f id | c w a d]; cbn [exec].
  - destruct (create_cases f id db) as [-> | [_ ->]]; [done |].
    intros k v. rewrite lookup_insert. case_decide; [| by apply Hn].
    by intros [= <-].
  - destruct (process_cases c w a d db) as [(_ & -> & _) | (b & H)]; [done |].
    destruct H as (Hw & Ha & Hd & _ & -> & _).
    intros k v. rewrite lookup_insert. case_decide; [| by apply Hn].
    intros [= <-]. pose proof (Hn _ _ Hw) as Hb. pose proof (Hr _ _ Hw) as Hb'.
    unfold Int64.in_range, Int64.max_int, Int64.min_int in Hb'.
    unfold newBalance, Int64.add, Int64.sub. destruct d.
    + simpl in Hfit. rewrite Hw in Hfit. apply Z.leb_le in Hfit.
      rewrite wrap_id; [lia |]. unfold Int64.in_range, Int64.min_int. lia.
    + specialize (Hd eq_refl). rewrite wrap_id; [lia |].
      unfold Int64.in_range, Int64.min_int, Int64.max_int. lia.
Qed.

Lemma run_nonneg ops : ∀ db,
  balances_in_range db → nonneg db → all_fit ops db = true →
  nonneg (run ops db).
Proof.
  induction ops as [| o ops IH]; intros db Hr Hn Hfit; [done |].
  simpl in Hfit. apply andb_prop in Hfit as [Ho Hrest].
  unfold run. simpl. apply IH.
  - by apply exec_in_range.
  - by apply exec_nonneg.
  - done.
Qed.

Lemma debits_all_fit ops : ∀ db, forallb is_debit ops = true → all_fit ops db = true.
Proof.
  induction ops as [| o ops IH]; intros db Hd; [done |].
  simpl in Hd. apply andb_prop in Hd as [Ho Hrest]. simpl.
  rewrite IH by done. destruct o as [| c w a []]; done.
Qed.

(** ** Claims about the executor *)

(** C1, as stated, fails: a wallet created with balance 0 and credited
    twice, with the largest [int64] and then with 1, ends with the least
    [int64] as its committed balance. *)
Lemma two_credits_go_negative :
  Forall op_in_range overflow_ops
  ∧ rows (run overflow_ops emptyDB) !! "w" = Some Int64.min_int
  ∧ ¬ nonneg (run overflow_ops emptyDB).
Proof.
  assert (rows (run overflow_ops emptyDB) !! "w" = Some Int64.min_int) as Hw
    by (vm_compute; reflexivity).
  split; [| split; [exact Hw |]].
  - repeat constructor; vm_compute; intuition discriminate.
  - intros Hn. specialize (Hn _ _ Hw). vm_compute in Hn. by apply Hn.
Qed.

(** C1 (amended): from a table whose balances are non-negative [int64]
    values, every history of repository calls in which each credit fits
    (the balance it finds plus its amount does not exceed the largest
    [int64]) keeps every committed balance at 0 or above, whatever store
    calls fail; a history of debits alone always does. *)
Theorem balance_nonneg_while_credits_fit ops db :
  balances_in_range db → nonneg db →
  (all_fit ops db = true → nonneg (run ops db))
  ∧ (forallb is_debit ops = true → nonneg (run ops db)).
Proof.
  intros Hr Hn. split; intros H.
  - by apply run_nonneg.
  - apply run_nonneg; [done | done |]. by apply debits_all_fit.
Qed.

Lemma balance_nonneg_while_credits_fit_witness :
  all_fit small_ops emptyDB = true ∧ nonneg (run small_ops emptyDB).
Proof.
  split; [vm_compute; reflexivity |].
  refine (proj1 (balance_nonneg_while_credits_fit small_ops emptyDB _ _) _).
  - intros id b. simpl. rewrite lookup_empty. discriminate.
  - intros id b. simpl. rewrite lookup_empty. discriminate.
  - vm_compute. reflexivity.
Defined.

(** C2, as stated, fails for a credit: on a balance equal to the largest
    [int64], a credit of 1 commits the least [int64], not the sum. *)
Lemma credit_at_max_commits_min :
  rows (repository.ProcessTransaction no_faults "w" 1 true
          (db_of "w" Int64.max_int)).2 !! "w" = Some Int64.min_int
  ∧ rows (repository.ProcessTransaction no_faults "w" 1 true
            (db_of "w" Int64.max_int)).2 !! "w" ≠ Some (Int64.max_int + 1).
Proof.
  assert (rows (repository.ProcessTransaction no_faults "w" 1 true
                  (db_of "w" Int64.max_int)).2 !! "w" = Some Int64.min_int)
    as Hw by (vm_compute; reflexivity).
  split; [exact Hw |]. rewrite Hw. vm_compute. discriminate.
Qed.

(** C2 (amended): for an existing wallet with committed balance [b] and
    an amount [a > 0], when every store call succeeds, a credit commits
    the wrapped sum [Int64.wrap (b + a)], which is [b + a] whenever
    [b + a] does not exceed the largest [int64], and a debit with
    [a ≤ b] commits [b - a]; each makes exactly one committed write, to
    that wallet's row, and returns no error. *)
Theorem executor_success w a b db :
  rows db !! w = Some b → Int64.in_range b → 0 < a →
  (repository.ProcessTransaction no_faults w a true db
   = (None,
      {| rows := <[w := Int64.wrap (b + a)]> (rows db);
         calls := calls db ++
           [CallBeginTx; CallQueryExists w; CallQueryBalanceForUpdate w;
            CallExecUpdate w (Int64.wrap (b + a)); CallCommit];
         committed := committed db ++ [(w, Int64.wrap (b + a))] |})
   ∧ (b + a ≤ Int64.max_int → Int64.wrap (b + a) = b + a))
  ∧ (a ≤ b →
     repository.ProcessTransaction no_faults w a false db
     = (None,
        {| rows := <[w := b - a]> (rows db);
           calls := calls db ++
             [CallBeginTx; CallQueryExists w; CallQueryBalanceForUpdate w;
              CallExecUpdate w (b - a); CallCommit];
           committed := committed db ++ [(w, b - a)] |})).
Proof.
  intros Hw Hb Ha.
  unfold Int64.in_range, Int64.min_int, Int64.max_int in Hb.
  split; [split |].
  - rewrite (process_commits w a b true db Ha Hw) by discriminate. reflexivity.
  - intros Hfit. apply wrap_id.
    unfold Int64.in_range, Int64.min_int, Int64.max_int in *. lia.
  - intros Hle. rewrite (process_commits w a b false db Ha Hw) by done.
    unfold db_after, newBalance, Int64.sub. rewrite wrap_id; [reflexivity |].
    unfold Int64.in_range, Int64.min_int, Int64.max_int. lia.
Qed.

Lemma executor_success_witness :
  (repository.ProcessTransaction no_faults "w" 500 true (db_of "w" 1500)
   = (None,
      {| rows := <["w" := Int64.wrap (1500 + 500)]> (rows (db_of "w" 1500));
         calls := calls (db_of "w" 1500) ++
           [CallBeginTx; CallQueryExists "w"; CallQueryBalanceForUpdate "w";
            CallExecUpdate "w" (Int64.wrap (1500 + 500)); CallCommit];
         committed := committed (db_of "w" 1500)
                      ++ [("w", Int64.wrap (1500 + 500))] |})
   ∧ (1500 + 500 ≤ Int64.max_int → Int64.wrap (1500 + 500) = 1500 + 500))
  ∧ (500 ≤ 1500 →
     repository.ProcessTransaction no_faults "w" 500 false (db_of "w" 1500)
     = (None,
        {| rows := <["w" := 1500 - 500]> (rows (db_of "w" 1500));
           calls := calls (db_of "w" 1500) ++
             [CallBeginTx; CallQueryExists "w"; CallQueryBalanceForUpdate "w";
              CallExecUpdate "w" (1500 - 500); CallCommit];
           committed := committed (db_of "w" 1500) ++ [("w", 1500 - 500)] |})).
Proof.
  apply (executor_success "w" 500 1500 (db_of "w" 1500)).
  - reflexivity.
  - unfold Int64.in_range, Int64.min_int, Int64.max_int. lia.
  - lia.
Defined.

(** C5: for a wallet id with no row and an amount [a > 0], a credit or a
    debit whose first two store calls succeed returns [ErrWalletNotFound];
    the table and the committed writes are as before, and the store saw
    the begin, the existence check and the rollback only, so the funds
    check was never reached. *)
Theorem missing_wallet_is_not_found c w a d db :
  rows db !! w = None → 0 < a →
  fail_begin c = false → fail_exists c = false →
  repository.ProcessTransaction c w a d db
  = (Some ErrWalletNotFound,
     {| rows := rows db;
        calls := calls db ++ [CallBeginTx; CallQueryExists w; CallRollback];
        committed := committed db |}).
Proof.
  intros Hw Ha Hb He. rewrite process_not_found by done. same_db.
Qed.

Lemma missing_wallet_is_not_found_witness :
  repository.ProcessTransaction no_faults "nonexistent" 100 false (db_of "w" 5)
  = (Some ErrWalletNotFound,
     {| rows := rows (db_of "w" 5);
        calls := calls (db_of "w" 5) ++
          [CallBeginTx; CallQueryExists "nonexistent"; CallRollback];
        committed := committed (db_of "w" 5) |}).
Proof.
  apply (missing_wallet_is_not_found no_faults "nonexistent" 100 false (db_of "w" 5)).
  - vm_compute. reflexivity.
  - lia.
  - reflexivity.
  - reflexivity.
Defined.

(** C8: on a wallet whose committed balance is 0, for every [int64]
    amount [A > 0], when every store call succeeds, a credit of [A]
    commits the balance [A] and the debit of [A] that follows commits the
    balance 0 again; the table is then as it was. *)
Theorem credit_then_debit_restores w A db :
  rows db !! w = Some 0 → 0 < A → A ≤ Int64.max_int →
  let r1 := repository.ProcessTransaction no_faults w A true db in
  let r2 := repository.ProcessTransaction no_faults w A false r1.2 in
  r1.1 = None ∧ rows r1.2 !! w = Some A
  ∧ r2.1 = None ∧ rows r2.2 !! w = Some 0 ∧ rows r2.2 = rows db.
Proof.
  intros Hw Ha Hmax. simpl.
  rewrite (process_commits w A 0 true db Ha Hw) by discriminate.
  unfold newBalance, Int64.add. rewrite Z.add_0_l.
  rewrite (wrap_id A)
    by (unfold Int64.in_range, Int64.min_int, Int64.max_int in *; lia).
  set (db1 := db_after db _ _). cbn [fst snd].
  assert (rows db1 !! w = Some A) as Hw1 by apply lookup_insert_eq.
  rewrite (process_commits w A A false db1 Ha Hw1) by (intros _; lia).
  unfold newBalance, Int64.sub. rewrite Z.sub_diag.
  rewrite (wrap_id 0) by (vm_compute; intuition discriminate).
  simpl. unfold write_row. simpl.
  split; [done |]. split; [apply lookup_insert_eq |]. split; [done |].
  split; [apply lookup_insert_eq |].
  rewrite insert_insert_eq. by apply insert_id.
Qed.

Lemma credit_then_debit_restores_witness :
  let r1 := repository.ProcessTransaction no_faults "w" 1500 true (db_of "w" 0) in
  let r2 := repository.ProcessTransaction no_faults "w" 1500 false r1.2 in
  r1.1 = None ∧ rows r1.2 !! "w" = Some 1500
  ∧ r2.1 = None ∧ rows r2.2 !! "w" = Some 0 ∧ rows r2.2 = rows (db_of "w" 0).
Proof.
  apply (credit_then_debit_restores "w" 1500 (db_of "w" 0)).
  - vm_compute. reflexivity.
  - lia.
  - unfold Int64.max_int. lia.
Defined.

(** C10: the new balance is computed in [int64] arithmetic without any
    overflow guard.  For an existing wallet with balance [b] and a credit
    of [a], both [int64] values with [b + a] above the largest [int64],
    when every store call succeeds the call returns no error and commits
    [(b + a) mod 2^64] read as a signed number, which is [b + a - 2^64]
    and negative. *)
Theorem credit_overflow_wraps w a b db :
  rows db !! w = Some b → Int64.in_range b → Int64.in_range a →
  Int64.max_int < b + a →
  let r := repository.ProcessTransaction no_faults w a true db in
  r.1 = None
  ∧ rows r.2 !! w = Some (signed64 ((b + a) mod 2 ^ 64))
  ∧ committed r.2 = committed db ++ [(w, signed64 ((b + a) mod 2 ^ 64))]
  ∧ signed64 ((b + a) mod 2 ^ 64) = b + a - 2 ^ 64
  ∧ signed64 ((b + a) mod 2 ^ 64) < 0.
Proof.
  intros Hw Hb Ha Hover.
  unfold Int64.in_range, Int64.min_int, Int64.max_int in *.
  assert (0 < a) as Hpos by lia.
  rewrite <- wrap_signed64.
  assert (Int64.wrap (b + a) = b + a - 2 ^ 64) as Hwrap
    by (apply wrap_overflow; unfold Int64.max_int; lia).
  simpl. rewrite (process_commits w a b true db Hpos Hw) by discriminate.
  simpl. unfold Int64.add. repeat split; try done.
  - unfold write_row. simpl. apply lookup_insert_eq.
  - lia.
Qed.

Lemma credit_overflow_wraps_witness :
  let r := repository.ProcessTransaction no_faults "w" 1 true
             (db_of "w" Int64.max_int) in
  r.1 = None
  ∧ rows r.2 !! "w" = Some (signed64 ((Int64.max_int + 1) mod 2 ^ 64))
  ∧ committed r.2
    = committed (db_of "w" Int64.max_int)
      ++ [("w", signed64 ((Int64.max_int + 1) mod 2 ^ 64))]
  ∧ signed64 ((Int64.max_int + 1) mod 2 ^ 64) = Int64.max_int + 1 - 2 ^ 64
  ∧ signed64 ((Int64.max_int + 1) mod 2 ^ 64) < 0.
Proof.
  apply (credit_overflow_wraps "w" 1 Int64.max_int (db_of "w" Int64.max_int)).
  - vm_compute. reflexivity.
  - unfold Int64.in_range, Int64.min_int, Int64.max_int. lia.
  - unfold Int64.in_range, Int64.min_int, Int64.max_int. lia.
  - unfold Int64.max_int. lia.
Defined.

(** ** The shard router *)

Lemma fnv_Write_range data : ∀ h,
  0 ≤ h < 2 ^ 32 → 0 ≤ fnv.Write h data < 2 ^ 32.
Proof.
  induction data as [| c data IH]; intros h Hh; [done |].
  unfold fnv.Write. simpl. apply IH. apply Z.mod_pos_bound. lia.
Qed.

Lemma fnv_sum_range id :
  0 ≤ fnv.Sum32 (fnv.Write fnv.New32a (list_ascii_of_string id)) < 2 ^ 32.
Proof.
  unfold fnv.Sum32. apply fnv_Write_range.
  unfold fnv.New32a, fnv.offset32. lia.
Qed.

Lemma to_int_64_uint32 x : 0 ≤ x < 2 ^ 32 → to_int 64 x = x.
Proof.
  intros Hx. unfold to_int. rewrite Z.mod_small; lia.
Qed.

Lemma getShard_state n id s : (getShard n id s).2 = s.
Proof. unfold getShard. by destruct (workers s =? 0). Qed.

Lemma getShard_64 id s :
  0 < workers s →
  ∃ k, getShard 64 id s = (Ok k, s) ∧ 0 ≤ k < workers s.
Proof.
  intros Hw. unfold getShard.
  destruct (Z.eqb_spec (workers s) 0) as [E | _]; [lia |].
  eexists. split; [reflexivity |].
  rewrite to_int_64_uint32 by apply fnv_sum_range.
  apply Z.rem_bound_pos; [apply fnv_sum_range | done].
Qed.

(** C7: [getShard] returns the same lane for the same wallet id on any
    two services with the same worker count, whatever their queues,
    result channels and store hold, and leaves the service as it found
    it. *)
Theorem getShard_pure n id s1 s2 :
  workers s1 = workers s2 →
  (getShard n id s1).1 = (getShard n id s2).1
  ∧ (getShard n id s1).2 = s1 ∧ (getShard n id s2).2 = s2.
Proof.
  intros Hw. split; [| split; apply getShard_state].
  unfold getShard. rewrite Hw. by destruct (workers s2 =? 0).
Qed.

(** C9: with a 64-bit [int], for every wallet id and every service with
    [w > 0] workers and one queue per worker, [getShard] returns a lane
    [k] with [0 ≤ k < w]; the queue [s.queues[k]] exists, and the send
    path of [ProcessTransaction] never panics on the index. *)
Theorem shard_in_range id s :
  0 < workers s → lanes_match s →
  ∃ k, getShard 64 id s = (Ok k, s)
       ∧ 0 ≤ k < workers s
       ∧ is_Some (queues s !! Z.to_nat k)
       ∧ ∀ c tr, WalletID tr = id →
           (ProcessTransaction_send 64 c tr s).1 ≠ Panicked "index out of range".
Proof.
  intros Hw Hlen. destruct (getShard_64 id s Hw) as (k & Hk & Hrange).
  assert (is_Some (queues s !! Z.to_nat k)) as Hq.
  { apply lookup_lt_is_Some. rewrite Hlen. lia. }
  exists k. repeat split; try done; try lia.
  intros c tr Hid. unfold ProcessTransaction_send.
  destruct (Amount tr <=? 0); [done |].
  rewrite Hid, Hk. destruct (Z.ltb_spec k 0); [lia |]. simpl.
  destruct Hq as [q ->]. by destruct (chan_send q _).
Qed.

Example NewWalletService_16 : NewWalletService emptyDB 16 = Ok service16.
Proof. reflexivity. Qed.

Example NewWalletService_negative :
  NewWalletService emptyDB (-1) = Panic "makeslice: len out of range".
Proof. reflexivity. Qed.

Example service16_busy_differs :
  queues service16_busy ≠ queues service16
  ∧ rows (repo service16_busy) !! "w" = Some 5.
Proof. split; [vm_compute; discriminate | vm_compute; reflexivity]. Qed.

Lemma getShard_pure_witness :
  (getShard 64 "wallet-1" service16).1 = (getShard 64 "wallet-1" service16_busy).1
  ∧ (getShard 64 "wallet-1" service16).2 = service16
  ∧ (getShard 64 "wallet-1" service16_busy).2 = service16_busy.
Proof.
  apply (getShard_pure 64 "wallet-1" service16 service16_busy).
  vm_compute. reflexivity.
Defined.

Lemma shard_in_range_witness :
  ∃ k, getShard 64 "wallet-1" service16 = (Ok k, service16)
       ∧ 0 ≤ k < workers service16
       ∧ is_Some (queues service16 !! Z.to_nat k)
       ∧ ∀ c tr, WalletID tr = "wallet-1" →
           (ProcessTransaction_send 64 c tr service16).1
           ≠ Panicked "index out of range".
Proof.
  apply (shard_in_range "wallet-1" service16).
  - simpl. lia.
  - vm_compute. reflexivity.
Defined.

(** Where [int] has 32 bits the conversion of the hash can be negative,
    and with it the lane: the empty id on 16 workers. *)
Example getShard_32_negative :
  (getShard 32 "" service16).1 = Ok (-11)
  ∧ (ProcessTransaction_send 32 no_faults
       {| WalletID := ""; OpType := Deposit; Amount := 1 |} service16).1
    = Panicked "index out of range".
Proof. split; vm_compute; reflexivity. Qed.

(** ** The admission path and the lane worker *)

Lemma send_invalid_amount n c tr s :
  Amount tr ≤ 0 → ProcessTransaction_send n c tr s = (Returned ErrInvalidAmount, s).
Proof.
  intros Ha. unfold ProcessTransaction_send.
  destruct (Z.leb_spec (Amount tr) 0); [reflexivity | lia].
Qed.

Lemma send_returned n c tr s e :
  (ProcessTransaction_send n c tr s).1 = Returned e →
  Amount tr ≤ 0 ∧ e = ErrInvalidAmount ∧ (ProcessTransaction_send n c tr s).2 = s.
Proof.
  unfold ProcessTransaction_send.
  destruct (Z.leb_spec (Amount tr) 0) as [Ha | Ha].
  - simpl. by intros [= <-].
  - destruct (getShard n (WalletID tr) s) as [[k | m] s1]; simpl; [| done].
    destruct (k <? 0); simpl; [done |].
    destruct (queues s1 !! Z.to_nat k) as [q |]; simpl; [| done].
    by destruct (chan_send q _).
Qed.

Lemma send_repo n c tr s :
  repo (ProcessTransaction_send n c tr s).2 = repo s.
Proof.
  unfold ProcessTransaction_send.
  destruct (Amount tr <=? 0); [done |].
  pose proof (getShard_state n (WalletID tr) s) as Hs.
  destruct (getShard n (WalletID tr) s) as [[k | m] s1]; simpl in Hs; subst s1;
    simpl; [| done].
  destruct (k <? 0); simpl; [done |].
  destruct (queues s !! Z.to_nat k) as [q |]; simpl; [| done].
  by destruct (chan_send q _).
Qed.

Lemma send_enqueues n c tr s k q :
  0 < Amount tr →
  getShard n (WalletID tr) s = (Ok k, s) → 0 ≤ k →
  queues s !! Z.to_nat k = Some q →
  closed q = false → Z.of_nat (length (buf q)) < cap q →
  ProcessTransaction_send n c tr s
  = (Enqueued (length (replies s)),
     {| repo := repo s;
        queues := <[Z.to_nat k :=
                     {| buf := buf q ++ [{| ctx := c; t := tr;
                                            result := length (replies s) |}];
                        cap := cap q; closed := false |}]> (queues s);
        workers := workers s;
        wg := wg s;
        replies := replies s ++ [make_chan (option error) 1] |}).
Proof.
  intros Ha Hk Hk0 Hq Hopen Hroom. unfold ProcessTransaction_send.
  destruct (Z.leb_spec (Amount tr) 0); [lia |].
  rewrite Hk. destruct (Z.ltb_spec k 0); [lia |]. simpl. rewrite Hq.
  unfold chan_send. rewrite Hopen.
  destruct (Z.ltb_spec (Z.of_nat (length (buf q))) (cap q)); [| lia].
  reflexivity.
Qed.

Lemma send_on_closed_lane n c tr s k q :
  0 < Amount tr →
  getShard n (WalletID tr) s = (Ok k, s) → 0 ≤ k →
  queues s !! Z.to_nat k = Some q → closed q = true →
  ProcessTransaction_send n c tr s
  = (Panicked "send on closed channel",
     set_replies (replies s ++ [make_chan (option error) 1]) s).
Proof.
  intros Ha Hk Hk0 Hq Hclosed. unfold ProcessTransaction_send.
  destruct (Z.leb_spec (Amount tr) 0); [lia |].
  rewrite Hk. destruct (Z.ltb_spec k 0); [lia |]. simpl. rewrite Hq.
  unfold chan_send. by rewrite Hclosed.
Qed.

Lemma switch_unknown_kind req db :
  OpType (t req) ≠ Deposit → OpType (t req) ≠ Withdraw →
  processTransactions_switch req db = (Some ErrInvalidOperation, db).
Proof.
  intros Hd Hw. unfold processTransactions_switch.
  apply String.eqb_neq in Hd, Hw. by rewrite Hd, Hw.
Qed.

Lemma switch_error_keeps_rows req db e :
  (processTransactions_switch req db).1 = Some e →
  rows (processTransactions_switch req db).2 = rows db
  ∧ committed (processTransactions_switch req db).2 = committed db.
Proof.
  unfold processTransactions_switch.
  destruct (String.eqb _ Deposit); [apply process_error_keeps_rows |].
  destruct (String.eqb _ Withdraw); [apply process_error_keeps_rows |].
  done.
Qed.

Lemma iter_delivered i s req e s' :
  processTransactions_iter i s = (Delivered req e, s') →
  e = (processTransactions_switch req (repo s)).1
  ∧ repo s' = (processTransactions_switch req (repo s)).2.
Proof.
  unfold processTransactions_iter.
  destruct (queues s !! i) as [q |]; [| done].
  destruct (chan_recv q) as [req' q' | |]; [| done | done]. simpl.
  destruct (replies s !! result req') as [rc |]; [| done].
  destruct (chan_send rc _) as [rc' | |]; [| done | done].
  by intros [= <- <- <-].
Qed.

Lemma iter_delivers i s q req rest rc :
  queues s !! i = Some q → buf q = req :: rest →
  replies s !! result req = Some rc →
  closed rc = false → Z.of_nat (length (buf rc)) < cap rc →
  processTransactions_iter i s
  = (Delivered req (processTransactions_switch req (repo s)).1,
     {| repo := (processTransactions_switch req (repo s)).2;
        queues := <[i := {| buf := rest; cap := cap q; closed := closed q |}]>
                    (queues s);
        workers := workers s;
        wg := wg s;
        replies := <[result req :=
                      {| buf := buf rc ++ [(processTransactions_switch req (repo s)).1];
                         cap := cap rc; closed := false |}]> (replies s) |}).
Proof.
  intros Hq Hbuf Hrc Hopen Hroom. unfold processTransactions_iter.
  rewrite Hq. unfold chan_recv. rewrite Hbuf. simpl. rewrite Hrc.
  unfold chan_send. rewrite Hopen.
  destruct (Z.ltb_spec (Z.of_nat (length (buf rc))) (cap rc)); [| lia].
  reflexivity.
Qed.

Lemma close_all_closed {A} (qs qs' : list (chan A)) :
  close_all qs = Ok qs' → Forall (λ q, closed q = true) qs'.
Proof.
  revert qs'. induction qs as [| q qs IH]; intros qs' H; simpl in H.
  - injection H as <-. constructor.
  - unfold chan_close in H. destruct (closed q); [done |].
    destruct (close_all qs) as [rest |]; [| done].
    injection H as <-. constructor; [done | by apply IH].
Qed.

Lemma Shutdown_close_lanes_closed s s' :
  Shutdown_close s = Ok s' → lanes_closed s'.
Proof.
  unfold Shutdown_close, lanes_closed.
  destruct (close_all (queues s)) as [qs |] eqn:Hqs; [| done].
  intros [= <-]. simpl. by eapply close_all_closed.
Qed.

(** The shape [lanes_match] holds of a new service and is kept by the
    send path and by the worker. *)
Lemma NewWalletService_lanes_match db n s :
  NewWalletService db n = Ok s → lanes_match s ∧ workers s = n ∧ repo s = db.
Proof.
  unfold NewWalletService. destruct (n <? 0); [done |].
  intros [= <-]. unfold lanes_match. simpl. by rewrite length_replicate.
Qed.

Lemma send_lanes_match n c tr s :
  lanes_match s → lanes_match (ProcessTransaction_send n c tr s).2.
Proof.
  unfold lanes_match, ProcessTransaction_send. intros Hs.
  destruct (Amount tr <=? 0); [done |].
  pose proof (getShard_state n (WalletID tr) s) as Hst.
  destruct (getShard n (WalletID tr) s) as [[k | m] s1]; simpl in Hst; subst s1;
    simpl; [| done].
  destruct (k <? 0); simpl; [done |].
  destruct (queues s !! Z.to_nat k) as [q |]; simpl; [| done].
  destruct (chan_send q _); simpl; [| done | done].
  by rewrite length_insert.
Qed.

Lemma iter_lanes_match i s :
  lanes_match s → lanes_match (processTransactions_iter i s).2.
Proof.
  unfold lanes_match, processTransactions_iter. intros Hs.
  destruct (queues s !! i) as [q |]; [| done].
  destruct (chan_recv q) as [req q' | |]; [| done | done]. simpl.
  destruct (replies s !! result req) as [rc |]; simpl;
    [| by rewrite length_insert].
  destruct (chan_send rc _); simpl; by rewrite length_insert.
Qed.

(** ** The scenarios of the service, run on one lane *)

(** A new wallet reads as 0. *)
Example scenario_create_then_balance :
  let r := repository.CreateWallet InsertDone "id-1" emptyDB in
  r.1 = inr "id-1" ∧ (repository.GetBalance false "id-1" r.2).1 = inr 0.
Proof. split; vm_compute; reflexivity. Qed.

(** A credit of 1500 is sent, served by the lane's worker and received
    as success; the balance is then 1500. *)
Example scenario_credit_served :
  let s := set_repo (db_of "id-1" 0) service1 in
  let tr := {| WalletID := "id-1"; OpType := Deposit; Amount := 1500 |} in
  let r1 := ProcessTransaction_send 64 no_faults tr s in
  let r2 := processTransactions_iter 0 r1.2 in
  let r3 := ProcessTransaction_recv 0 r2.2 in
  r1.1 = Enqueued 0%nat ∧ r3.1 = Some None
  ∧ rows (repo r3.2) !! "id-1" = Some 1500.
Proof. repeat split; vm_compute; reflexivity. Qed.

(** A debit of 2000 on a balance of 1500 is refused and changes nothing;
    a debit on an unknown wallet is refused as not found. *)
Example scenario_debit_refused :
  let s := set_repo (db_of "id-1" 1500) service1 in
  let tr := {| WalletID := "id-1"; OpType := Withdraw; Amount := 2000 |} in
  let r2 := processTransactions_iter 0 (ProcessTransaction_send 64 no_faults tr s).2 in
  (ProcessTransaction_recv 0 r2.2).1 = Some (Some ErrInsufficientFunds)
  ∧ rows (repo r2.2) !! "id-1" = Some 1500.
Proof. split; vm_compute; reflexivity. Qed.

Example scenario_unknown_wallet :
  let s := set_repo (db_of "id-1" 1500) service1 in
  let tr := {| WalletID := "nonexistent"; OpType := Withdraw; Amount := 100 |} in
  let r2 := processTransactions_iter 0 (ProcessTransaction_send 64 no_faults tr s).2 in
  (ProcessTransaction_recv 0 r2.2).1 = Some (Some ErrWalletNotFound).
Proof. vm_compute. reflexivity. Qed.

(** After [Shutdown] has closed the queues the worker leaves its loop, and
    a second [Shutdown] panics on the first [close]. *)
Example scenario_shutdown :
  Shutdown_close service1 = Ok service1_closed
  ∧ (processTransactions_iter 0 service1_closed).1 = WorkerExit
  ∧ Shutdown_wait (processTransactions_iter 0 service1_closed).2 = true
  ∧ Shutdown_close service1_closed = Panic "close of closed channel".
Proof. repeat split; vm_compute; reflexivity. Qed.

(** ** Claims about rejections, admission and shutdown *)

(** C3: a debit of [a > 0] on an existing wallet whose balance [b] is
    below [a], with the three store calls before the funds check
    succeeding, returns [ErrInsufficientFunds]; the table and the
    committed writes are as before, and the store saw no update, only the
    begin, the two reads and the rollback.  More generally a repository
    call, a worker iteration or a send that ends in [ErrInvalidAmount],
    [ErrInvalidOperation], [ErrWalletNotFound] or [ErrInsufficientFunds]
    leaves every balance as it was. *)
Theorem insufficient_funds_is_atomic c w a b db :
  rows db !! w = Some b → 0 < a → b < a →
  fail_begin c = false → fail_exists c = false → fail_select c = false →
  repository.ProcessTransaction c w a false db
  = (Some ErrInsufficientFunds,
     {| rows := rows db;
        calls := calls db ++
          [CallBeginTx; CallQueryExists w; CallQueryBalanceForUpdate w;
           CallRollback];
        committed := committed db |})
  ∧ (∀ c' w' a' d db' e,
       is_rejection e = true →
       (repository.ProcessTransaction c' w' a' d db').1 = Some e →
       rows (repository.ProcessTransaction c' w' a' d db').2 = rows db'
       ∧ committed (repository.ProcessTransaction c' w' a' d db').2
         = committed db')
  ∧ (∀ i s req e s',
       is_rejection e = true →
       processTransactions_iter i s = (Delivered req (Some e), s') →
       rows (repo s') = rows (repo s)
       ∧ committed (repo s') = committed (repo s))
  ∧ (∀ n c' tr s e,
       (ProcessTransaction_send n c' tr s).1 = Returned e →
       (ProcessTransaction_send n c' tr s).2 = s).
Proof.
  intros Hw Ha Hlt Hb He Hs. split; [| split; [| split]].
  - rewrite (process_insufficient c w a b db) by done. same_db.
  - intros c' w' a' d db' e _ Herr. by eapply process_error_keeps_rows.
  - intros i s req e s' _ Hiter.
    apply iter_delivered in Hiter as [Herr ->].
    by eapply switch_error_keeps_rows.
  - intros n c' tr s e Hr. by apply send_returned in Hr as (_ & _ & ->).
Qed.

Lemma insufficient_funds_is_atomic_witness :
  repository.ProcessTransaction no_faults "w" 2000 false (db_of "w" 1500)
  = (Some ErrInsufficientFunds,
     {| rows := rows (db_of "w" 1500);
        calls := calls (db_of "w" 1500) ++
          [CallBeginTx; CallQueryExists "w"; CallQueryBalanceForUpdate "w";
           CallRollback];
        committed := committed (db_of "w" 1500) |}).
Proof.
  refine (proj1 (insufficient_funds_is_atomic no_faults "w" 2000 1500
                   (db_of "w" 1500) _ _ _ _ _ _)).
  - vm_compute. reflexivity.
  - lia.
  - lia.
  - reflexivity.
  - reflexivity.
  - reflexivity.
Defined.

(** C4, as stated, fails for the kind: a request with an unknown kind and
    a positive amount is not answered by the send path; it is put on its
    lane's queue. *)
Lemma unknown_kind_is_enqueued :
  OpType bad_kind ≠ Deposit ∧ OpType bad_kind ≠ Withdraw
  ∧ (ProcessTransaction_send 64 no_faults bad_kind service1).1 = Enqueued 0%nat
  ∧ (ProcessTransaction_send 64 no_faults bad_kind service1).1
    ≠ Returned ErrInvalidOperation
  ∧ queues (ProcessTransaction_send 64 no_faults bad_kind service1).2
    ≠ queues service1.
Proof.
  split; [| split; [| split; [| split]]]; vm_compute; done.
Qed.

(** C4 (amended): the send path of [ProcessTransaction] checks the amount
    only.  With amount ≤ 0 it returns [ErrInvalidAmount] at once and
    leaves the service, its queues and its store untouched.  With
    amount > 0 it never returns an error itself, and it makes no store
    call; a request of unknown kind is put on its lane, and the lane's
    worker answers it with [ErrInvalidOperation], again without a store
    call, which the caller then receives.  The worker answers so
    whenever it takes a request of unknown kind from a queue. *)
Theorem prelane_validation n c tr s :
  (Amount tr ≤ 0 →
     ProcessTransaction_send n c tr s = (Returned ErrInvalidAmount, s))
  ∧ (0 < Amount tr → ∀ e, (ProcessTransaction_send n c tr s).1 ≠ Returned e)
  ∧ repo (ProcessTransaction_send n c tr s).2 = repo s
  ∧ (0 < Amount tr → OpType tr ≠ Deposit → OpType tr ≠ Withdraw →
     ∀ k q, getShard n (WalletID tr) s = (Ok k, s) → 0 ≤ k →
       queues s !! Z.to_nat k = Some q →
       buf q = [] → closed q = false → 0 < cap q →
       ∃ rc s1 s2 s3,
         ProcessTransaction_send n c tr s = (Enqueued rc, s1)
         ∧ buf <$> queues s1 !! Z.to_nat k
           = Some [{| ctx := c; t := tr; result := rc |}]
         ∧ processTransactions_iter (Z.to_nat k) s1
           = (Delivered {| ctx := c; t := tr; result := rc |}
                (Some ErrInvalidOperation), s2)
         ∧ ProcessTransaction_recv rc s2 = (Some (Some ErrInvalidOperation), s3)
         ∧ repo s3 = repo s)
  ∧ (∀ i q req rest rc,
       queues s !! i = Some q → buf q = req :: rest →
       OpType (t req) ≠ Deposit → OpType (t req) ≠ Withdraw →
       replies s !! result req = Some rc →
       closed rc = false → Z.of_nat (length (buf rc)) < cap rc →
       (processTransactions_iter i s).1
       = Delivered req (Some ErrInvalidOperation)
       ∧ repo (processTransactions_iter i s).2 = repo s).
Proof.
  split; [apply send_invalid_amount |].
  split; [intros Ha e He; apply send_returned in He; lia |].
  split; [apply send_repo |].
  split.
  2: { intros i q req rest rc Hq Hbuf Hd Hw Hrc Hopen Hroom.
       rewrite (iter_delivers i s q req rest rc) by done.
       by rewrite (switch_unknown_kind req (repo s) Hd Hw). }
  intros Ha Hd Hw k q Hk Hk0 Hq Hbuf Hopen Hcap.
  set (rc := length (replies s)).
  set (req := {| ctx := c; t := tr; result := rc |}).
  assert (Z.to_nat k < length (queues s))%nat as Hlen
    by (eapply lookup_lt_Some; eassumption).
  pose proof (send_enqueues n c tr s k q Ha Hk Hk0 Hq Hopen) as Hsend.
  rewrite Hbuf in Hsend. specialize (Hsend ltac:(simpl; lia)).
  simpl in Hsend. fold rc in Hsend. fold req in Hsend.
  set (s1 := {| repo := repo s; queues := _; workers := _; wg := _;
                replies := _ |}) in Hsend.
  assert (queues s1 !! Z.to_nat k
          = Some {| buf := [req]; cap := cap q; closed := false |}) as Hq1
    by (simpl; by apply list_lookup_insert_eq).
  assert (replies s1 !! result req = Some (make_chan (option error) 1)) as Hrc
    by (simpl; apply list_lookup_middle; reflexivity).
  pose proof (iter_delivers (Z.to_nat k) s1 _ req [] _ Hq1 eq_refl Hrc eq_refl
                ltac:(simpl; lia)) as Hiter.
  rewrite (switch_unknown_kind req (repo s1) Hd Hw) in Hiter. simpl in Hiter.
  set (s2 := {| repo := repo s; queues := _; workers := _; wg := _;
                replies := _ |}) in Hiter.
  assert (replies s2 !! rc
          = Some {| buf := [Some ErrInvalidOperation]; cap := 1;
                    closed := false |}) as Hrc2.
  { simpl. apply list_lookup_insert_eq. rewrite length_app. simpl. lia. }
  eexists rc, s1, s2, _.
  split; [exact Hsend |]. split; [by rewrite Hq1 |]. split; [exact Hiter |].
  split; [unfold ProcessTransaction_recv; rewrite Hrc2; reflexivity |].
  reflexivity.
Qed.

Lemma prelane_validation_witness :
  ProcessTransaction_send 64 no_faults bad_amount service1
  = (Returned ErrInvalidAmount, service1)
  ∧ ∃ rc s1 s2 s3,
      ProcessTransaction_send 64 no_faults bad_kind service1 = (Enqueued rc, s1)
      ∧ buf <$> queues s1 !! Z.to_nat 0
        = Some [{| ctx := no_faults; t := bad_kind; result := rc |}]
      ∧ processTransactions_iter (Z.to_nat 0) s1
        = (Delivered {| ctx := no_faults; t := bad_kind; result := rc |}
             (Some ErrInvalidOperation), s2)
      ∧ ProcessTransaction_recv rc s2 = (Some (Some ErrInvalidOperation), s3)
      ∧ repo s3 = repo service1.
Proof.
  split.
  - refine (proj1 (prelane_validation 64 no_faults bad_amount service1) _).
    simpl. lia.
  - destruct (prelane_validation 64 no_faults bad_kind service1)
      as (_ & _ & _ & Hserved & _).
    apply (Hserved ltac:(simpl; lia) ltac:(discriminate) ltac:(discriminate)
             0 (make_chan transactionRequest 10000)).
    + vm_compute. reflexivity.
    + lia.
    + reflexivity.
    + reflexivity.
    + reflexivity.
    + simpl. lia.
Defined.

(** C6, as stated, fails: once the queues are closed, a request with a
    positive amount makes the caller panic on the send; no error is
    returned. *)
Lemma submit_after_shutdown_panics :
  Shutdown_close service1 = Ok service1_closed
  ∧ (ProcessTransaction_send 64 no_faults deposit100 service1_closed).1
    = Panicked "send on closed channel"
  ∧ ¬ ∃ e, (ProcessTransaction_send 64 no_faults deposit100 service1_closed).1
           = Returned e.
Proof.
  assert ((ProcessTransaction_send 64 no_faults deposit100 service1_closed).1
          = Panicked "send on closed channel") as Hp
    by (vm_compute; reflexivity).
  split; [reflexivity |]. split; [exact Hp |].
  intros [e He]. rewrite Hp in He. discriminate.
Qed.

(** C6 (amended): on a service with a 64-bit [int], [w > 0] workers, one
    queue per worker and every queue closed, the send path never blocks:
    a request with amount ≤ 0 still returns [ErrInvalidAmount], and a
    request with amount > 0 panics at once on the send to the closed
    queue, with the queues and the store untouched. *)
Theorem after_shutdown_send_fails_at_once c tr s :
  lanes_closed s → 0 < workers s → lanes_match s →
  (Amount tr ≤ 0 →
     ProcessTransaction_send 64 c tr s = (Returned ErrInvalidAmount, s))
  ∧ (0 < Amount tr →
     (ProcessTransaction_send 64 c tr s).1 = Panicked "send on closed channel"
     ∧ queues (ProcessTransaction_send 64 c tr s).2 = queues s
     ∧ repo (ProcessTransaction_send 64 c tr s).2 = repo s).
Proof.
  intros Hclosed Hw Hlen. split; [apply send_invalid_amount |].
  intros Ha. destruct (getShard_64 (WalletID tr) s Hw) as (k & Hk & Hrange).
  destruct (lookup_lt_is_Some_2 (queues s) (Z.to_nat k)) as [q Hq].
  { rewrite Hlen. lia. }
  assert (closed q = true) as Hq_closed.
  { unfold lanes_closed in Hclosed. rewrite Forall_lookup in Hclosed.
    by apply (Hclosed _ _ Hq). }
  rewrite (send_on_closed_lane 64 c tr s k q Ha Hk ltac:(lia) Hq Hq_closed).
  done.
Qed.

Lemma after_shutdown_send_fails_at_once_witness :
  (ProcessTransaction_send 64 no_faults deposit100 service1_closed).1
  = Panicked "send on closed channel"
  ∧ queues (ProcessTransaction_send 64 no_faults deposit100 service1_closed).2
    = queues service1_closed
  ∧ repo (ProcessTransaction_send 64 no_faults deposit100 service1_closed).2
    = repo service1_closed.
Proof.
  refine (proj2 (after_shutdown_send_fails_at_once no_faults deposit100
                   service1_closed _ _ _) _).
  - apply (Shutdown_close_lanes_closed service1). reflexivity.
  - simpl. lia.
  - reflexivity.
  - simpl. lia.
Defined.

(** * Further properties of the code *)

(** ** The repository *)

Lemma wrap_wrap_add x y : Int64.wrap (Int64.wrap x + y) = Int64.wrap (x + y).
Proof.
  unfold Int64.wrap. f_equal.
  replace ((x + 2 ^ 63) mod 2 ^ 64 - 2 ^ 63 + y + 2 ^ 63)
    with ((x + 2 ^ 63) mod 2 ^ 64 + y) by lia.
  rewrite Zplus_mod_idemp_l. f_equal. lia.
Qed.

(** X1: a wallet inserted under a fresh id reads as 0 at once, and the
    insert changes no other row; an insert that fails, or whose id is
    taken, changes no row at all. *)
Theorem create_then_balance_is_zero id db :
  rows db !! id = None →
  (repository.CreateWallet InsertDone id db).1 = inr id
  ∧ (repository.GetBalance false id
       (repository.CreateWallet InsertDone id db).2).1 = inr 0
  ∧ (∀ id', id' ≠ id →
       rows (repository.CreateWallet InsertDone id db).2 !! id'
       = rows db !! id')
  ∧ (∀ o id' db' e,
       (repository.CreateWallet o id' db').1 = inl e →
       rows (repository.CreateWallet o id' db').2 = rows db').
Proof.
  intros Hid. unfold repository.CreateWallet, repository.GetBalance,
    sbind, sret, record_call. simpl. rewrite Hid. simpl.
  split; [done |]. split; [by rewrite lookup_insert_eq |].
  split; [intros id' Hne; by rewrite lookup_insert_ne |].
  intros o id' db' e. destruct o; simpl; try done.
  by destruct (rows db' !! id').
Qed.

Lemma create_then_balance_is_zero_witness :
  (repository.CreateWallet InsertDone "id-2" (db_of "id-1" 7)).1 = inr "id-2"
  ∧ (repository.GetBalance false "id-2"
       (repository.CreateWallet InsertDone "id-2" (db_of "id-1" 7)).2).1
    = inr 0.
Proof.
  pose proof (create_then_balance_is_zero "id-2" (db_of "id-1" 7)) as H.
  destruct H as (H1 & H2 & _); [vm_compute; reflexivity |]. by split.
Defined.

(** X2: what [GetBalance] reads after a [ProcessTransaction]: after a
    nil result the wallet had a balance and the new one is read; after
    any error, whatever store call failed, every wallet reads as
    before. *)
Theorem balance_read_after_process c w a d db :
  ((repository.ProcessTransaction c w a d db).1 = None →
    ∃ b, (repository.GetBalance false w db).1 = inr b
         ∧ (repository.GetBalance false w
              (repository.ProcessTransaction c w a d db).2).1
           = inr (newBalance d b a)
  ) ∧ (∀ e w',
    (repository.ProcessTransaction c w a d db).1 = Some e →
    (repository.GetBalance false w'
       (repository.ProcessTransaction c w a d db).2).1
    = (repository.GetBalance false w' db).1).
Proof.
  split.
  - intros Hnil.
    destruct (process_cases c w a d db) as [(Hne & _) | (b & H)]; [done |].
    destruct H as (Hw & _ & _ & _ & Hrows & _). exists b.
    unfold repository.GetBalance, sbind, sret, record_call. simpl.
    rewrite Hw, Hrows, lookup_insert_eq. done.
  - intros e w' He. apply process_error_keeps_rows in He as [Hrows _].
    unfold repository.GetBalance, sbind, sret, record_call. simpl.
    by rewrite Hrows.
Qed.

(** X3: a [ProcessTransaction] on wallet [w] never changes the balance
    of another wallet and never adds or removes a row. *)
Theorem process_touches_one_row c w a d db :
  (∀ w', w' ≠ w →
     rows (repository.ProcessTransaction c w a d db).2 !! w' = rows db !! w')
  ∧ dom (rows (repository.ProcessTransaction c w a d db).2) = dom (rows db).
Proof.
  destruct (process_cases c w a d db) as [(_ & Hr & _) | (b & H)];
    [by rewrite Hr |].
  destruct H as (Hw & _ & _ & _ & Hr & _). rewrite Hr. split.
  - intros w' Hne. by rewrite lookup_insert_ne.
  - by apply dom_insert_lookup_L.
Qed.

(** X4: a write is committed exactly when [ProcessTransaction] returns
    nil: with nil there is one more committed write, to wallet [w];
    with an error, a failed update or commit included, the committed
    writes and the table are as before. *)
Theorem commit_iff_nil c w a d db :
  ((repository.ProcessTransaction c w a d db).1 = None ↔
   ∃ v, committed (repository.ProcessTransaction c w a d db).2
        = committed db ++ [(w, v)])
  ∧ ((repository.ProcessTransaction c w a d db).1 ≠ None ↔
     committed (repository.ProcessTransaction c w a d db).2 = committed db
     ∧ rows (repository.ProcessTransaction c w a d db).2 = rows db).
Proof.
  destruct (process_cases c w a d db) as [(Hne & Hr & Hc) | (b & H)].
  - split; split.
    + done.
    + intros [v Hv]. rewrite Hc in Hv.
      apply (f_equal length) in Hv. rewrite length_app in Hv. simpl in Hv. lia.
    + done.
    + done.
  - destruct H as (_ & _ & _ & Hnil & _ & Hc). split; split.
    + intros _. eauto.
    + done.
    + done.
    + intros [Hc' _]. rewrite Hc in Hc'.
      apply (f_equal length) in Hc'. rewrite length_app in Hc'.
      simpl in Hc'. lia.
Qed.

(** X5: a [ProcessTransaction] with a positive amount whose [BeginTx]
    succeeds makes the store calls of one transaction: they start with
    the begin, end with a commit or a rollback, and have no begin,
    commit or rollback in between.  With an amount ≤ 0 no store call is
    made. *)
Theorem transaction_is_always_ended c w a d db :
  (0 < a → fail_begin c = false →
   ∃ mid last,
     calls (repository.ProcessTransaction c w a d db).2
     = calls db ++ CallBeginTx :: mid ++ [last]
     ∧ (last = CallCommit ∨ last = CallRollback)
     ∧ forallb (λ x, negb (is_tx_boundary x)) mid = true)
  ∧ (a ≤ 0 → calls (repository.ProcessTransaction c w a d db).2 = calls db).
Proof.
  split.
  2: { intros Ha. by rewrite process_invalid_amount. }
  intros Ha Hb. run_store.
  destruct (Z.leb_spec a 0) as [Ha' | _]; [lia |]. rewrite Hb. simpl.
  destruct (rows db !! w) as [b |] eqn:Hw.
  2: { destruct (fail_exists c); simpl.
       - exists [CallQueryExists w], CallRollback.
         rewrite <- !app_assoc. auto.
       - rewrite Hw. simpl. exists [CallQueryExists w], CallRollback.
         rewrite <- !app_assoc. auto. }
  destruct (fail_exists c); simpl.
  { exists [CallQueryExists w], CallRollback. rewrite <- !app_assoc. auto. }
  rewrite ?Hw; simpl.
  destruct (fail_select c); simpl.
  { exists [CallQueryExists w; CallQueryBalanceForUpdate w], CallRollback.
    rewrite <- !app_assoc. auto. }
  rewrite ?Hw; simpl.
  destruct (negb d && (b <? a)); simpl.
  { exists [CallQueryExists w; CallQueryBalanceForUpdate w], CallRollback.
    rewrite <- !app_assoc. auto. }
  destruct (fail_update c); simpl.
  { eexists [CallQueryExists w; CallQueryBalanceForUpdate w;
             CallExecUpdate w _], CallRollback.
    rewrite <- !app_assoc. simpl. auto. }
  rewrite ?Hw; simpl.
  destruct (fail_commit c); simpl.
  - eexists [CallQueryExists w; CallQueryBalanceForUpdate w;
             CallExecUpdate w _], CallCommit.
    rewrite <- !app_assoc. simpl. auto.
  - eexists [CallQueryExists w; CallQueryBalanceForUpdate w;
             CallExecUpdate w _], CallCommit.
    rewrite <- !app_assoc. simpl. auto.
Qed.

Lemma run_app ops1 ops2 db : run (ops1 ++ ops2) db = run ops2 (run ops1 db).
Proof. unfold run. apply foldl_app. Qed.

Lemma credit_row w a b db :
  0 < a → rows db !! w = Some b →
  rows (exec (OpProcess no_faults w a true) db) !! w = Some (Int64.wrap (b + a)).
Proof.
  intros Ha Hw. cbn [exec].
  rewrite (process_commits w a b true db Ha Hw) by discriminate.
  simpl. unfold write_row. simpl. apply lookup_insert_eq.
Qed.

Lemma credits_balance w l : ∀ b db,
  Forall (λ a, 0 < a) l → rows db !! w = Some b → Int64.in_range b →
  rows (run (credits w l) db) !! w = Some (Int64.wrap (b + sumZ l)).
Proof.
  induction l as [| a l IH]; intros b db Hpos Hw Hb.
  - simpl. rewrite Z.add_0_r, wrap_id by done. exact Hw.
  - apply Forall_cons in Hpos as [Ha Hpos].
    change (credits w (a :: l)) with ([OpProcess no_faults w a true] ++ credits w l).
    rewrite run_app.
    rewrite (IH (Int64.wrap (b + a))); [| done | | apply wrap_in_range].
    + rewrite wrap_wrap_add. simpl. f_equal. f_equal. lia.
    + unfold run. simpl. unfold flip. by apply credit_row.
Qed.

Lemma sumZ_perm l l' : l ≡ₚ l' → sumZ l = sumZ l'.
Proof.
  induction 1 as [| x l l' _ IH | x y l | l l' l'' _ IH1 _ IH2]; simpl; lia.
Qed.

(** X6: credits add up.  On an existing wallet with balance [b], a
    history of credits with positive amounts, every store call
    succeeding, leaves the wrapped sum of [b] and the amounts; this is
    the exact sum while it does not exceed the largest [int64], and it is
    the same in whatever order the credits are made. *)
Theorem credits_add_up w l b db :
  Forall (λ a, 0 < a) l → rows db !! w = Some b → Int64.in_range b →
  rows (run (credits w l) db) !! w = Some (Int64.wrap (b + sumZ l))
  ∧ (b + sumZ l ≤ Int64.max_int →
     rows (run (credits w l) db) !! w = Some (b + sumZ l))
  ∧ (∀ l', l ≡ₚ l' →
     rows (run (credits w l') db) !! w = rows (run (credits w l) db) !! w).
Proof.
  intros Hpos Hw Hb. split; [by apply credits_balance |]. split.
  - intros Hfit. rewrite (credits_balance w l b db) by done.
    f_equal. apply wrap_id.
    assert (0 ≤ sumZ l) as Hsum.
    { clear -Hpos. induction Hpos; simpl; lia. }
    unfold Int64.in_range, Int64.min_int, Int64.max_int in *. lia.
  - intros l' Hperm.
    rewrite (credits_balance w l b db) by done.
    rewrite (credits_balance w l' b db); [| by rewrite <- Hperm | done | done].
    by rewrite (sumZ_perm l l').
Qed.

Lemma credits_add_up_witness :
  rows (run (credits "w" (replicate 100 10)) (db_of "w" 0)) !! "w"
  = Some (0 + sumZ (replicate 100 10)).
Proof.
  pose proof (credits_add_up "w" (replicate 100 10) 0 (db_of "w" 0)) as H.
  destruct H as (_ & H & _).
  - apply Forall_replicate. lia.
  - vm_compute. reflexivity.
  - vm_compute. intuition discriminate.
  - apply H. vm_compute. discriminate.
Defined.

(** ** The lanes and the result channels *)

Lemma lanes_split (qs : list (chan transactionRequest)) k q q' :
  qs !! k = Some q →
  concat (buf <$> qs)
  = concat (buf <$> take k qs) ++ buf q ++ concat (buf <$> drop (S k) qs)
  ∧ concat (buf <$> <[k := q']> qs)
    = concat (buf <$> take k qs) ++ buf q' ++ concat (buf <$> drop (S k) qs).
Proof.
  intros Hk. split.
  - rewrite <- (take_drop_middle qs k q Hk) at 1.
    by rewrite fmap_app, concat_app, fmap_cons.
  - rewrite insert_take_drop by (by eapply lookup_lt_Some).
    by rewrite fmap_app, concat_app, fmap_cons.
Qed.

Lemma lane_push (qs : list (chan transactionRequest)) k q q' req :
  qs !! k = Some q → buf q' = buf q ++ [req] →
  concat (buf <$> <[k := q']> qs) ≡ₚ req :: concat (buf <$> qs).
Proof.
  intros Hk Hbuf. destruct (lanes_split qs k q q' Hk) as [-> ->].
  rewrite Hbuf. rewrite <- !app_assoc. simpl.
  by rewrite <- !Permutation_middle.
Qed.

Lemma lane_pop (qs : list (chan transactionRequest)) k q q' req :
  qs !! k = Some q → buf q = req :: buf q' →
  concat (buf <$> qs) ≡ₚ req :: concat (buf <$> <[k := q']> qs).
Proof.
  intros Hk Hbuf. destruct (lanes_split qs k q q' Hk) as [-> ->].
  rewrite Hbuf. simpl. by rewrite <- Permutation_middle.
Qed.

Lemma lane_member (qs : list (chan transactionRequest)) k q req :
  qs !! k = Some q → req ∈ buf q → req ∈ concat (buf <$> qs).
Proof.
  intros Hk Hin. destruct (lanes_split qs k q q Hk) as [-> _].
  rewrite !elem_of_app. auto.
Qed.

Lemma ready_after_pop s s' req :
  replies_ready s → queued s ≡ₚ req :: queued s' →
  (∀ k, k ≠ result req → replies s' !! k = replies s !! k) →
  replies_ready s'.
Proof.
  intros [Hnd Hall] Hperm Hframe.
  rewrite Hperm in Hnd. rewrite fmap_cons in Hnd.
  apply NoDup_cons in Hnd as [Hfresh Hnd]. split; [done |].
  rewrite Forall_forall in Hall. apply Forall_forall. intros r Hr.
  destruct (Hall r) as (rc & Hrc & Hrest).
  { rewrite Hperm. by apply list_elem_of_further. }
  exists rc. split; [| done]. rewrite Hframe; [done |].
  intros Heq. apply Hfresh. rewrite <- Heq. by apply list_elem_of_fmap_2.
Qed.

Lemma ready_same_queued s s' :
  replies_ready s → queued s' = queued s →
  (∀ r, r ∈ queued s → replies s' !! result r = replies s !! result r) →
  replies_ready s'.
Proof.
  intros [Hnd Hall] Hq Hframe. unfold replies_ready. rewrite Hq.
  split; [done |]. rewrite Forall_forall in Hall. apply Forall_forall.
  intros r Hr. destruct (Hall r Hr) as (rc & Hrc & Hrest).
  exists rc. by rewrite Hframe.
Qed.

Lemma ready_after_push s s' req :
  replies_ready s → queued s' ≡ₚ req :: queued s →
  replies s' = replies s ++ [make_chan (option error) 1] →
  result req = length (replies s) →
  replies_ready s'.
Proof.
  intros [Hnd Hall] Hperm Hreplies Hres. rewrite Forall_forall in Hall.
  split.
  - rewrite Hperm, fmap_cons. apply NoDup_cons. split; [| done].
    intros Hin. apply list_elem_of_fmap in Hin as (r & Heq & Hr).
    destruct (Hall r Hr) as (rc & Hrc & _).
    apply lookup_lt_Some in Hrc. lia.
  - apply Forall_forall. intros r Hr. rewrite Hperm in Hr.
    apply elem_of_cons in Hr as [-> | Hr].
    + exists (make_chan (option error) 1). rewrite Hreplies, Hres.
      split; [by apply list_lookup_middle |]. simpl. split_and!; [done .. | lia].
    + destruct (Hall r Hr) as (rc & Hrc & Hrest). exists rc.
      split; [| done]. rewrite Hreplies. by apply lookup_app_l_Some.
Qed.

Lemma chan_send_ok {A} (c c' : chan A) v :
  chan_send c v = SendOk c' →
  c' = {| buf := buf c ++ [v]; cap := cap c; closed := false |}
  ∧ closed c = false ∧ Z.of_nat (length (buf c)) < cap c.
Proof.
  unfold chan_send. destruct (closed c); [done |].
  destruct (Z.ltb_spec (Z.of_nat (length (buf c))) (cap c)); [| done].
  by intros [= <-].
Qed.

Lemma chan_recv_ok {A} (c c' : chan A) v :
  chan_recv c = RecvOk v c' →
  buf c = v :: buf c' ∧ cap c' = cap c ∧ closed c' = closed c.
Proof.
  unfold chan_recv. destruct (buf c) as [| x rest]; [by destruct (closed c) |].
  by intros [= <- <-].
Qed.

Lemma send_ready n c tr s :
  replies_ready s → replies_ready (ProcessTransaction_send n c tr s).2.
Proof.
  intros Hs. unfold ProcessTransaction_send.
  destruct (Amount tr <=? 0); [done |].
  pose proof (getShard_state n (WalletID tr) s) as Hst.
  destruct (getShard n (WalletID tr) s) as [[k | m] s1]; simpl in Hst; subst s1;
    [| done].
  set (s1 := set_replies _ s).
  assert (replies_ready s1) as Hs1.
  { apply (ready_same_queued s); [done | done |].
    intros r Hr. destruct Hs as [_ Hall]. rewrite Forall_forall in Hall.
    destruct (Hall r Hr) as (rc & Hrc & _). simpl.
    apply lookup_app_l. by eapply lookup_lt_Some. }
  destruct (k <? 0); [done |].
  destruct (queues s1 !! Z.to_nat k) as [q |] eqn:Hq; [| done].
  destruct (chan_send q _) as [q' | |] eqn:Hsend; [| done | done].
  apply chan_send_ok in Hsend as (-> & _ & _). simpl.
  apply (ready_after_push s _
           {| ctx := c; t := tr; result := length (replies s) |});
    [done | | reflexivity | reflexivity].
  unfold queued. simpl. by eapply lane_push.
Qed.

Lemma iter_ready i s :
  replies_ready s → replies_ready (processTransactions_iter i s).2.
Proof.
  intros Hs. unfold processTransactions_iter.
  destruct (queues s !! i) as [q |] eqn:Hq; [| done].
  destruct (chan_recv q) as [req q' | |] eqn:Hrecv.
  - apply chan_recv_ok in Hrecv as (Hbuf & _ & _).
    assert (queued s ≡ₚ req :: concat (buf <$> <[i := q']> (queues s)))
      as Hperm by (by eapply lane_pop).
    simpl.
    destruct (replies s !! result req) as [rc |] eqn:Hrc.
    + destruct (chan_send rc _) as [rc' | |]; simpl.
      * apply (ready_after_pop s _ req); [done | done |].
        intros k Hk. simpl. by apply list_lookup_insert_ne.
      * by apply (ready_after_pop s _ req).
      * by apply (ready_after_pop s _ req).
    + by apply (ready_after_pop s _ req).
  - done.
  - by apply (ready_same_queued s).
Qed.

Lemma recv_ready rc s :
  replies_ready s → replies_ready (ProcessTransaction_recv rc s).2.
Proof.
  intros Hs. unfold ProcessTransaction_recv.
  destruct (replies s !! rc) as [ch |] eqn:Hch; [| done].
  destruct (chan_recv ch) as [e ch' | |] eqn:Hrecv; [| done | done].
  apply chan_recv_ok in Hrecv as (Hbuf & _ & _). simpl.
  apply (ready_same_queued s); [done | done |].
  intros r Hr. simpl. apply list_lookup_insert_ne. intros ->.
  destruct Hs as [_ Hall]. rewrite Forall_forall in Hall.
  destruct (Hall r Hr) as (ch0 & Hch0 & Hempty & _).
  rewrite Hch in Hch0. injection Hch0 as <-. by rewrite Hbuf in Hempty.
Qed.

Lemma close_all_buf {A} (qs qs' : list (chan A)) :
  close_all qs = Ok qs' → buf <$> qs' = buf <$> qs.
Proof.
  revert qs'. induction qs as [| q qs IH]; intros qs' H; simpl in H.
  - by injection H as <-.
  - unfold chan_close in H. destruct (closed q); [done |].
    destruct (close_all qs) as [rest |]; [| done].
    injection H as <-. simpl. f_equal. by apply IH.
Qed.

Lemma shutdown_ready s s' :
  replies_ready s → Shutdown_close s = Ok s' → replies_ready s'.
Proof.
  intros Hs. unfold Shutdown_close.
  destruct (close_all (queues s)) as [qs |] eqn:Hqs; [| done].
  intros [= <-]. apply (ready_same_queued s); [done | | done].
  unfold queued. simpl. by rewrite (close_all_buf _ _ Hqs).
Qed.

Lemma new_lanes_empty n :
  concat (buf <$> replicate n (make_chan transactionRequest 10000)) = [].
Proof. induction n as [| n IH]; [done |]. simpl. exact IH. Qed.

Lemma new_ready db n s : NewWalletService db n = Ok s → replies_ready s.
Proof.
  unfold NewWalletService. destruct (n <? 0); [done |]. intros [= <-].
  unfold replies_ready, queued. simpl. rewrite new_lanes_empty.
  split; [apply NoDup_nil_2 | apply Forall_nil_2].
Qed.

(** X7: in every state the service reaches, each request waiting on a
    lane has a result channel of its own that is open, empty and has
    room.  This holds of a new service and is kept by the send path, by
    a worker iteration, by the receive and by the closing of the queues
    in [Shutdown]. *)
Theorem replies_ready_is_kept :
  (∀ db n s, NewWalletService db n = Ok s → replies_ready s)
  ∧ (∀ n c tr s,
       replies_ready s → replies_ready (ProcessTransaction_send n c tr s).2)
  ∧ (∀ i s,
       replies_ready s → replies_ready (processTransactions_iter i s).2)
  ∧ (∀ rc s,
       replies_ready s → replies_ready (ProcessTransaction_recv rc s).2)
  ∧ (∀ s s', replies_ready s → Shutdown_close s = Ok s' → replies_ready s').
Proof.
  split; [exact new_ready |]. split; [exact send_ready |].
  split; [exact iter_ready |]. split; [exact recv_ready | exact shutdown_ready].
Qed.

(** X8: the worker never stalls on an answer.  While every waiting
    request has its result channel ready, an iteration on a lane that
    holds a request serves the oldest one and delivers its answer; on an
    empty lane it blocks, or returns once the lane is closed. *)
Theorem worker_never_stalls i s q :
  replies_ready s → queues s !! i = Some q →
  match buf q with
  | req :: _ =>
      (processTransactions_iter i s).1
      = Delivered req (processTransactions_switch req (repo s)).1
  | [] =>
      (processTransactions_iter i s).1
      = if closed q then WorkerExit else WorkerBlocked
  end.
Proof.
  intros [_ Hall] Hq. destruct (buf q) as [| req rest] eqn:Hbuf.
  - unfold processTransactions_iter, chan_recv. rewrite Hq, Hbuf.
    by destruct (closed q).
  - rewrite Forall_forall in Hall. destruct (Hall req) as (rc & Hrc & He & Ho & Hc).
    { apply (lane_member _ i q); [done |]. rewrite Hbuf. apply list_elem_of_here. }
    rewrite (iter_delivers i s q req rest rc); try done.
    rewrite He. simpl. lia.
Qed.

Lemma worker_never_stalls_witness :
  (processTransactions_iter 0
     (ProcessTransaction_send 64 no_faults deposit100 service1).2).1
  = Delivered {| ctx := no_faults; t := deposit100; result := 0 |}
      (Some ErrWalletNotFound).
Proof.
  refine (worker_never_stalls 0
    (ProcessTransaction_send 64 no_faults deposit100 service1).2
    {| buf := [{| ctx := no_faults; t := deposit100; result := 0 |}];
       cap := 10000; closed := false |} _ _).
  - apply send_ready. apply (new_ready emptyDB 1). reflexivity.
  - vm_compute. reflexivity.
Defined.

(** ** Shutdown *)

(** X9: when [Shutdown] has closed the queues without a panic, every
    lane is closed and still holds the requests it held, in the same
    order; the store and the result channels are untouched.  On a
    service with at least one lane a second [Shutdown] then panics on
    its first [close]. *)
Theorem shutdown_keeps_backlog s s' :
  Shutdown_close s = Ok s' →
  buf <$> queues s' = buf <$> queues s
  ∧ lanes_closed s'
  ∧ repo s' = repo s ∧ replies s' = replies s
  ∧ (queues s ≠ [] → Shutdown_close s' = Panic "close of closed channel").
Proof.
  intros Hclose. pose proof (Shutdown_close_lanes_closed s s' Hclose) as Hcl.
  unfold Shutdown_close in Hclose.
  destruct (close_all (queues s)) as [qs |] eqn:Hqs; [| done].
  injection Hclose as <-. simpl. split; [by apply close_all_buf |].
  split; [done |]. split; [done |]. split; [done |].
  intros Hne. unfold Shutdown_close. simpl.
  unfold lanes_closed in Hcl. simpl in Hcl.
  destruct qs as [| q qs].
  - destruct (queues s) as [| q0 qs0]; [done |]. simpl in Hqs.
    destruct (chan_close q0); [| done]. by destruct (close_all qs0).
  - apply Forall_cons in Hcl as [Hq _]. simpl. unfold chan_close.
    by rewrite Hq.
Qed.

Lemma shutdown_keeps_backlog_witness :
  buf <$> queues service1_closed = buf <$> queues service1
  ∧ lanes_closed service1_closed
  ∧ repo service1_closed = repo service1
  ∧ replies service1_closed = replies service1
  ∧ (queues service1 ≠ [] →
     Shutdown_close service1_closed = Panic "close of closed channel").
Proof.
  apply (shutdown_keeps_backlog service1 service1_closed). reflexivity.
Defined.

Lemma lane_nodup s i q :
  replies_ready s → queues s !! i = Some q → NoDup (result <$> buf q).
Proof.
  intros [Hnd _] Hq. unfold queued in Hnd.
  destruct (lanes_split (queues s) i q q Hq) as [Heq _]. rewrite Heq in Hnd.
  rewrite !fmap_app in Hnd.
  apply NoDup_app in Hnd as (_ & _ & Hnd). by apply NoDup_app in Hnd as (Hnd & _).
Qed.

Lemma drain_closed_lane i l : ∀ fuel s q,
  replies_ready s → queues s !! i = Some q → buf q = l →
  closed q = true → (length l < fuel)%nat →
  ∃ s', processTransactions fuel i s = (LoopExit, s')
        ∧ repo s' = (serve l (repo s)).2
        ∧ buf <$> queues s' !! i = Some []
        ∧ wg s' = pred (wg s)
        ∧ (∀ j r e, l !! j = Some r → (serve l (repo s)).1 !! j = Some e →
             buf <$> replies s' !! result r = Some [e])
        ∧ (∀ k, k ∉ result <$> l → replies s' !! k = replies s !! k)
        ∧ (∀ j, j ≠ i → queues s' !! j = queues s !! j).
Proof.
  induction l as [| req rest IH]; intros fuel s q Hs Hq Hbuf Hcl Hfuel.
  - destruct fuel as [| fuel]; [simpl in Hfuel; lia |]. simpl.
    unfold processTransactions_iter, chan_recv. rewrite Hq, Hbuf, Hcl.
    eexists. split; [reflexivity |]. simpl. rewrite Hq. simpl. rewrite Hbuf.
    repeat split; try done.
  - destruct fuel as [| fuel]; [simpl in Hfuel; lia |].
    pose proof (lane_nodup s i q Hs Hq) as Hnd. rewrite Hbuf in Hnd.
    rewrite fmap_cons in Hnd. apply NoDup_cons in Hnd as [Hfresh _].
    pose proof (iter_ready i s Hs) as Hs1.
    destruct Hs as [_ Hall]. rewrite Forall_forall in Hall.
    destruct (Hall req) as (rc & Hrc & He & Ho & Hc).
    { apply (lane_member _ i q); [done |]. rewrite Hbuf. apply list_elem_of_here. }
    assert (Z.of_nat (length (buf rc)) < cap rc) as Hroom
      by (rewrite He; simpl; lia).
    pose proof (iter_delivers i s q req rest rc Hq Hbuf Hrc Ho Hroom) as Hiter.
    rewrite He in Hiter. simpl in Hiter.
    set (x := processTransactions_switch req (repo s)) in *.
    simpl. rewrite Hiter. rewrite Hiter in Hs1. simpl in Hs1.
    set (s1 := {| repo := x.2; queues := _; workers := _; wg := _;
                  replies := _ |}) in *.
    assert (i < length (queues s))%nat as Hi by (by eapply lookup_lt_Some).
    destruct (IH fuel s1 {| buf := rest; cap := cap q; closed := closed q |})
      as (s' & Hrun & Hrepo & Hlane & Hwg & Hans & Hframe & Hothers).
    { done. }
    { simpl. by apply list_lookup_insert_eq. }
    { done. }
    { done. }
    { simpl in Hfuel. lia. }
    exists s'. split; [done |]. split; [done |]. split; [done |].
    split; [done |]. split; [| split].
    + intros j r e Hj He'. destruct j as [| j]; simpl in Hj, He'.
      * injection Hj as <-. injection He' as <-.
        rewrite Hframe by done. simpl.
        rewrite list_lookup_insert_eq by (by eapply lookup_lt_Some). done.
      * by apply (Hans j).
    + intros k Hk. change (k ∉ result req :: (result <$> rest)) in Hk.
      apply not_elem_of_cons in Hk as [Hne Hk].
      rewrite Hframe by done. simpl. by apply list_lookup_insert_ne.
    + intros j Hj. rewrite Hothers by done. simpl.
      by apply list_lookup_insert_ne.
Qed.

(** X10: a closed lane is drained, nothing is dropped.  While every
    waiting request has its result channel ready, the worker of a closed
    lane, given more iterations than the lane holds requests, serves
    them all in their order on the store, delivers each answer on the
    request's result channel, leaves the lane empty and returns (with
    [wg.Done()]); the other lanes and result channels are untouched. *)
Theorem closed_lane_is_drained fuel i s q :
  replies_ready s → queues s !! i = Some q →
  closed q = true → (length (buf q) < fuel)%nat →
  ∃ s', processTransactions fuel i s = (LoopExit, s')
        ∧ repo s' = (serve (buf q) (repo s)).2
        ∧ buf <$> queues s' !! i = Some []
        ∧ wg s' = pred (wg s)
        ∧ (∀ j r e, buf q !! j = Some r →
             (serve (buf q) (repo s)).1 !! j = Some e →
             buf <$> replies s' !! result r = Some [e])
        ∧ (∀ k, k ∉ result <$> buf q → replies s' !! k = replies s !! k)
        ∧ (∀ j, j ≠ i → queues s' !! j = queues s !! j).
Proof.
  intros Hs Hq Hcl Hfuel. by apply (drain_closed_lane i (buf q) fuel s q).
Qed.

Example service1_backlog_reached :
  Shutdown_close
    (ProcessTransaction_send 64 no_faults withdraw30
       (ProcessTransaction_send 64 no_faults deposit100
          (set_repo (db_of "wallet-1" 0) service1)).2).2
  = Ok service1_backlog.
Proof. vm_compute. reflexivity. Qed.

Lemma closed_lane_is_drained_witness :
  ∃ s', processTransactions 3 0 service1_backlog = (LoopExit, s')
        ∧ rows (repo s') !! "wallet-1" = Some 70
        ∧ buf <$> replies s' !! 0%nat = Some [None]
        ∧ buf <$> replies s' !! 1%nat = Some [None].
Proof.
  destruct (closed_lane_is_drained 3 0 service1_backlog
    {| buf := [{| ctx := no_faults; t := deposit100; result := 0 |};
               {| ctx := no_faults; t := withdraw30; result := 1 |}];
       cap := 10000; closed := true |})
    as (s' & Hrun & Hrepo & _ & _ & Hans & _).
  - apply (shutdown_ready _ _ (send_ready 64 no_faults withdraw30 _
      (send_ready 64 no_faults deposit100 _
         (new_ready (db_of "wallet-1" 0) 1 _ eq_refl)))).
    vm_compute. reflexivity.
  - reflexivity.
  - reflexivity.
  - simpl. lia.
  - exists s'. split; [exact Hrun |]. split; [by rewrite Hrepo |].
    split.
    + apply (Hans 0%nat {| ctx := no_faults; t := deposit100; result := 0 |});
        reflexivity.
    + apply (Hans 1%nat {| ctx := no_faults; t := withdraw30; result := 1 |});
        reflexivity.
Defined.

(** ** A new service *)


(** ** Backpressure *)

Lemma new_bounded db n s : NewWalletService db n = Ok s → lanes_bounded s.
Proof.
  unfold NewWalletService. destruct (n <? 0); [done |]. intros [= <-].
  unfold lanes_bounded. simpl. apply Forall_replicate. simpl. lia.
Qed.

Lemma send_bounded n c tr s :
  lanes_bounded s → lanes_bounded (ProcessTransaction_send n c tr s).2.
Proof.
  unfold lanes_bounded, ProcessTransaction_send. intros Hs.
  destruct (Amount tr <=? 0); [done |].
  pose proof (getShard_state n (WalletID tr) s) as Hst.
  destruct (getShard n (WalletID tr) s) as [[k | m] s1]; simpl in Hst; subst s1;
    simpl; [| done].
  destruct (k <? 0); simpl; [done |].
  destruct (queues s !! Z.to_nat k) as [q |]; simpl; [| done].
  destruct (chan_send q _) as [q' | |] eqn:Hsend; simpl; [| done | done].
  apply chan_send_ok in Hsend as (-> & _ & Hroom).
  apply Forall_insert; [done |]. simpl. rewrite length_app. simpl. lia.
Qed.

Lemma iter_bounded i s :
  lanes_bounded s → lanes_bounded (processTransactions_iter i s).2.
Proof.
  unfold lanes_bounded, processTransactions_iter. intros Hs.
  destruct (queues s !! i) as [q |] eqn:Hq; [| done].
  destruct (chan_recv q) as [req q' | |] eqn:Hrecv; [| done | done].
  apply chan_recv_ok in Hrecv as (Hbuf & Hcap & _).
  assert (Forall (λ q, Z.of_nat (length (buf q)) ≤ cap q)
            (<[i := q']> (queues s))) as Hs'.
  { apply Forall_insert; [done |]. rewrite Forall_lookup in Hs.
    specialize (Hs i q Hq). simpl in Hs. rewrite Hbuf in Hs. simpl in Hs.
    rewrite Hcap. lia. }
  simpl. destruct (replies s !! result req) as [rc |]; simpl; [| done].
  by destruct (chan_send rc _).
Qed.

(** X12: the lanes are bounded.  A new service has lanes of capacity
    10000, all empty; the send path and the worker never leave a lane
    with more requests than its capacity; and a send to an open lane
    that is full blocks, leaving queues and store as they were. *)
Theorem lanes_stay_bounded :
  (∀ db n s, NewWalletService db n = Ok s →
     lanes_bounded s ∧ Forall (λ q, cap q = 10000 ∧ buf q = []) (queues s))
  ∧ (∀ n c tr s,
       lanes_bounded s → lanes_bounded (ProcessTransaction_send n c tr s).2)
  ∧ (∀ i s,
       lanes_bounded s → lanes_bounded (processTransactions_iter i s).2)
  ∧ (∀ n c tr s k q,
       0 < Amount tr → getShard n (WalletID tr) s = (Ok k, s) → 0 ≤ k →
       queues s !! Z.to_nat k = Some q → closed q = false →
       cap q ≤ Z.of_nat (length (buf q)) →
       (ProcessTransaction_send n c tr s).1 = SendBlocked
       ∧ queues (ProcessTransaction_send n c tr s).2 = queues s
       ∧ repo (ProcessTransaction_send n c tr s).2 = repo s).
Proof.
  split; [| split; [exact send_bounded | split; [exact iter_bounded |]]].
  - intros db n s Hnew. split; [by eapply new_bounded |].
    unfold NewWalletService in Hnew. destruct (n <? 0); [done |].
    injection Hnew as <-. simpl. by apply Forall_replicate.
  - intros n c tr s k q Ha Hk Hk0 Hq Hopen Hfull.
    unfold ProcessTransaction_send.
    destruct (Z.leb_spec (Amount tr) 0); [lia |].
    rewrite Hk. destruct (Z.ltb_spec k 0); [lia |]. simpl. rewrite Hq.
    unfold chan_send. rewrite Hopen.
    by destruct (Z.ltb_spec (Z.of_nat (length (buf q))) (cap q)); [lia |].
Qed.

(** ** From the send to the answer *)

Lemma switch_valid_kind req db :
  (OpType (t req) = Deposit →
   processTransactions_switch req db
   = repository.ProcessTransaction (ctx req) (WalletID (t req))
       (Amount (t req)) true db)
  ∧ (OpType (t req) = Withdraw →
     processTransactions_switch req db
     = repository.ProcessTransaction (ctx req) (WalletID (t req))
         (Amount (t req)) false db).
Proof.
  unfold processTransactions_switch. split; intros ->; reflexivity.
Qed.

(** X13: the service adds nothing to the repository's answer.  A request
    with a positive amount sent to an open, empty lane is put on it; the
    lane's next iteration serves it on the store and delivers the
    answer; the caller receives that answer; the lanes are then as
    before.  For a credit or a debit the answer and the store are those
    of the repository's [ProcessTransaction]. *)
Theorem lone_request_gets_repository_answer n c tr s k q :
  0 < Amount tr →
  getShard n (WalletID tr) s = (Ok k, s) → 0 ≤ k →
  queues s !! Z.to_nat k = Some q →
  buf q = [] → closed q = false → 0 < cap q →
  ∃ rc s1 s2 s3,
    ProcessTransaction_send n c tr s = (Enqueued rc, s1)
    ∧ processTransactions_iter (Z.to_nat k) s1
      = (Delivered {| ctx := c; t := tr; result := rc |}
           (processTransactions_switch
              {| ctx := c; t := tr; result := rc |} (repo s)).1, s2)
    ∧ ProcessTransaction_recv rc s2
      = (Some (processTransactions_switch
                 {| ctx := c; t := tr; result := rc |} (repo s)).1, s3)
    ∧ repo s3 = (processTransactions_switch
                   {| ctx := c; t := tr; result := rc |} (repo s)).2
    ∧ queues s3 = queues s
    ∧ (OpType tr = Deposit →
       processTransactions_switch {| ctx := c; t := tr; result := rc |} (repo s)
       = repository.ProcessTransaction c (WalletID tr) (Amount tr) true (repo s))
    ∧ (OpType tr = Withdraw →
       processTransactions_switch {| ctx := c; t := tr; result := rc |} (repo s)
       = repository.ProcessTransaction c (WalletID tr) (Amount tr) false (repo s)).
Proof.
  intros Ha Hk Hk0 Hq Hbuf Hopen Hcap.
  set (rc := length (replies s)).
  set (req := {| ctx := c; t := tr; result := rc |}).
  assert (Z.to_nat k < length (queues s))%nat as Hlen
    by (by eapply lookup_lt_Some).
  pose proof (send_enqueues n c tr s k q Ha Hk Hk0 Hq Hopen) as Hsend.
  rewrite Hbuf in Hsend. specialize (Hsend ltac:(simpl; lia)).
  simpl in Hsend. fold rc in Hsend. fold req in Hsend.
  set (s1 := {| repo := repo s; queues := _; workers := _; wg := _;
                replies := _ |}) in Hsend.
  assert (queues s1 !! Z.to_nat k
          = Some {| buf := [req]; cap := cap q; closed := false |}) as Hq1
    by (simpl; by apply list_lookup_insert_eq).
  assert (replies s1 !! result req = Some (make_chan (option error) 1)) as Hrc
    by (simpl; apply list_lookup_middle; reflexivity).
  pose proof (iter_delivers (Z.to_nat k) s1 _ req [] _ Hq1 eq_refl Hrc eq_refl
                ltac:(simpl; lia)) as Hiter.
  change (repo s1) with (repo s) in Hiter.
  set (x := processTransactions_switch req (repo s)) in *.
  simpl in Hiter.
  set (s2 := {| repo := x.2; queues := _; workers := _; wg := _;
                replies := _ |}) in Hiter.
  assert (replies s2 !! rc
          = Some {| buf := [x.1]; cap := 1; closed := false |}) as Hrc2.
  { simpl. apply list_lookup_insert_eq. rewrite length_app. simpl. lia. }
  eexists rc, s1, s2, _.
  split; [exact Hsend |]. split; [exact Hiter |].
  split; [unfold ProcessTransaction_recv; rewrite Hrc2; reflexivity |].
  split; [reflexivity |]. split.
  - simpl. rewrite list_insert_insert_eq. apply list_insert_id.
    rewrite Hq. f_equal. destruct q as [b cp cl]. simpl in *. by subst.
  - apply (switch_valid_kind req (repo s)).
Qed.

Lemma lone_request_gets_repository_answer_witness :
  ∃ rc s1 s2 s3,
    ProcessTransaction_send 64 no_faults deposit100
      (set_repo (db_of "wallet-1" 0) service1) = (Enqueued rc, s1)
    ∧ ProcessTransaction_recv rc s2 = (Some None, s3)
    ∧ rows (repo s3) !! "wallet-1" = Some 100
    ∧ queues s3 = queues service1.
Proof.
  destruct (lone_request_gets_repository_answer 64 no_faults deposit100
              (set_repo (db_of "wallet-1" 0) service1) 0
              (make_chan transactionRequest 10000))
    as (rc & s1 & s2 & s3 & Hsend & _ & Hrecv & Hrepo & Hq & _).
  - simpl. lia.
  - vm_compute. reflexivity.
  - lia.
  - reflexivity.
  - reflexivity.
  - reflexivity.
  - simpl. lia.
  - exists rc, s1, s2, s3. split; [exact Hsend |].
    apply (f_equal fst) in Hsend. vm_compute in Hsend.
    injection Hsend as <-. split; [exact Hrecv |]. split; [| exact Hq].
    rewrite Hrepo. vm_compute. reflexivity.
Defined.

(** ** Which error for which reason *)

(** X14: the errors of the repository's [ProcessTransaction] and their
    only causes: [ErrInvalidAmount] only for an amount ≤ 0,
    [ErrWalletNotFound] only for a wallet without a row,
    [ErrInsufficientFunds] only for a debit above the balance, and never
    [ErrInvalidOperation]; any other error is a failed store call. *)
Theorem process_error_causes c w a d db e :
  (repository.ProcessTransaction c w a d db).1 = Some e →
  match e with
  | ErrInvalidAmount => a ≤ 0
  | ErrWalletNotFound => 0 < a ∧ rows db !! w = None
  | ErrInsufficientFunds =>
      0 < a ∧ d = false ∧ ∃ b, rows db !! w = Some b ∧ b < a
  | ErrInvalidOperation => False
  | ErrStore _ =>
      0 < a ∧ (fail_begin c = true ∨ fail_exists c = true
               ∨ fail_select c = true ∨ fail_update c = true
               ∨ fail_commit c = true)
  end.
Proof.
  run_store.
  destruct (Z.leb_spec a 0) as [Ha | Ha]; [by intros [= <-] |].
  destruct (rows db !! w) as [b |] eqn:Hw.
  2: { destruct (fail_begin c); simpl; [intros [= <-]; auto |].
       destruct (fail_exists c); simpl; [intros [= <-]; auto 6 |].
       rewrite Hw. simpl. by intros [= <-]. }
  destruct (fail_begin c); simpl; [intros [= <-]; auto |].
  destruct (fail_exists c); simpl; [intros [= <-]; auto 6 |].
  rewrite ?Hw; simpl.
  destruct (fail_select c); simpl; [intros [= <-]; auto 6 |].
  rewrite ?Hw; simpl.
  destruct (negb d && (b <? a)) eqn:Hfunds; simpl.
  { intros [= <-]. apply andb_prop in Hfunds as [Hd Hlt].
    apply negb_true_iff in Hd. apply Z.ltb_lt in Hlt. eauto. }
  destruct (fail_update c); simpl; [intros [= <-]; auto 7 |].
  rewrite ?Hw; simpl.
  destruct (fail_commit c); simpl; [intros [= <-]; auto 8 | done].
Qed.

Lemma process_error_causes_witness :
  0 < 2000 ∧ false = false
  ∧ ∃ b, rows (db_of "w" 1500) !! "w" = Some b ∧ b < 2000.
Proof.
  apply (process_error_causes no_faults "w" 2000 false (db_of "w" 1500)
           ErrInsufficientFunds).
  vm_compute. reflexivity.
Defined.

(** ** The handler *)

Lemma list_ascii_of_string_app a b :
  list_ascii_of_string (a +:+ b)
  = list_ascii_of_string a ++ list_ascii_of_string b.
Proof. induction a as [| ch a IH]; simpl; [done | by rewrite IH]. Qed.

Lemma TrimPrefix_app p s : gostrings.TrimPrefix (p +:+ s) p = s.
Proof.
  unfold gostrings.TrimPrefix, gostrings.HasPrefix.
  rewrite list_ascii_of_string_app, length_app, take_app_length, drop_app_length.
  rewrite bool_decide_true by done.
  destruct (Nat.leb_spec (length (list_ascii_of_string p))
              (length (list_ascii_of_string p)
               + length (list_ascii_of_string s))); [| lia].
  simpl. apply string_of_list_ascii_of_string.
Qed.

Lemma TrimSuffix_app s x : gostrings.TrimSuffix (s +:+ x) x = s.
Proof.
  unfold gostrings.TrimSuffix, gostrings.HasSuffix.
  rewrite list_ascii_of_string_app, length_app.
  replace (length (list_ascii_of_string s) + length (list_ascii_of_string x)
           - length (list_ascii_of_string x))%nat
    with (length (list_ascii_of_string s)) by lia.
  rewrite take_app_length, drop_app_length.
  rewrite bool_decide_true by done.
  destruct (Nat.leb_spec (length (list_ascii_of_string x))
              (length (list_ascii_of_string s)
               + length (list_ascii_of_string x))); [| lia].
  simpl. apply string_of_list_ascii_of_string.
Qed.

(** X15: the handlers find the wallet id in the URL.  From the path of a
    transaction, [/api/v1/wallets/<id>/transactions], [HandleTransaction]
    takes exactly [<id>], and from [/api/v1/wallets/<id>]
    [HandleGetBalance] takes exactly [<id>], whatever the id is; a path
    that does not start with the prefix is taken whole. *)
Theorem wallet_id_from_path id :
  handler.transactionWalletID ("/api/v1/wallets/" +:+ id +:+ "/transactions")
  = id
  ∧ gostrings.TrimPrefix ("/api/v1/wallets/" +:+ id) "/api/v1/wallets/" = id
  ∧ (∀ path, gostrings.HasPrefix path "/api/v1/wallets/" = false →
       gostrings.TrimPrefix path "/api/v1/wallets/" = path).
Proof.
  split; [| split].
  - unfold handler.transactionWalletID.
    rewrite (TrimPrefix_app "/api/v1/wallets/"). apply TrimSuffix_app.
  - apply TrimPrefix_app.
  - intros path Hno. unfold gostrings.TrimPrefix. by rewrite Hno.
Qed.

Lemma process_positive_amount c w a d db :
  0 < a →
  (repository.ProcessTransaction c w a d db).1 ≠ Some ErrInvalidOperation
  ∧ (repository.ProcessTransaction c w a d db).1 ≠ Some ErrInvalidAmount.
Proof.
  intros Ha. run_store.
  destruct (Z.leb_spec a 0) as [Ha' | _]; [lia |].
  destruct (rows db !! w) as [b |] eqn:Hw.
  2: { destruct (fail_begin c); simpl; [done |].
       destruct (fail_exists c); simpl; [done |]. by rewrite Hw. }
  destruct (fail_begin c); simpl; [done |].
  destruct (fail_exists c); simpl; [done |].
  rewrite ?Hw; simpl.
  destruct (fail_select c); simpl; [done |].
  rewrite ?Hw; simpl.
  destruct (negb d && (b <? a)); simpl; [done |].
  destruct (fail_update c); simpl; [done |].
  rewrite ?Hw; simpl.
  by destruct (fail_commit c).
Qed.

Lemma valid_kind_never_invalid c tr rc db :
  0 < Amount tr → OpType tr = Deposit ∨ OpType tr = Withdraw →
  (processTransactions_switch {| ctx := c; t := tr; result := rc |} db).1
  ≠ Some ErrInvalidOperation
  ∧ (processTransactions_switch {| ctx := c; t := tr; result := rc |} db).1
    ≠ Some ErrInvalidAmount.
Proof.
  intros Ha Hkind.
  destruct (switch_valid_kind {| ctx := c; t := tr; result := rc |} db)
    as [Hd Hw].
  destruct Hkind as [Hk | Hk].
  - rewrite (Hd Hk). by apply process_positive_amount.
  - rewrite (Hw Hk). by apply process_positive_amount.
Qed.

(** X16: [HandleTransaction] guards the service.  Either it answers 400
    without calling the service (the id in the URL is no UUID, the body
    does not decode, the kind is neither DEPOSIT nor WITHDRAW, or the
    amount is ≤ 0), or it calls the service once, with the id from the
    URL, a valid kind and a positive amount, and answers 200 for nil,
    404 for [ErrWalletNotFound], 409 for [ErrInsufficientFunds], 400 for
    [ErrInvalidAmount] and 500 otherwise.  A transaction it passes on is
    never refused by the service's own amount check nor answered
    [ErrInvalidOperation] or [ErrInvalidAmount] by the worker. *)
Theorem transaction_handler_guards_service
    (uuid_Parse : string → bool) (FormatInt : Z → string)
    (Error : error → string) (Svc : Type)
    (svc : Transaction → Svc → option error * Svc)
    (r : handler.Request) (s : Svc) :
  let id := handler.transactionWalletID (handler.Path r) in
  let out := handler.HandleTransaction uuid_Parse FormatInt Error Svc svc r s in
  (out.2 = s ∧ ∃ msg, out.1 = handler.sendErrorResponse msg 400)
  ∨ (∃ t0, handler.Decoded r = Some t0
       ∧ uuid_Parse id = true ∧ 0 < Amount t0
       ∧ (OpType t0 = Deposit ∨ OpType t0 = Withdraw)
       ∧ out = (handler.transactionResponse FormatInt Error id
                  {| WalletID := id; OpType := OpType t0; Amount := Amount t0 |}
                  (svc {| WalletID := id; OpType := OpType t0;
                          Amount := Amount t0 |} s).1,
                (svc {| WalletID := id; OpType := OpType t0;
                        Amount := Amount t0 |} s).2)
       ∧ handler.statusCode out.1
         = match (svc {| WalletID := id; OpType := OpType t0;
                         Amount := Amount t0 |} s).1 with
           | None => 200
           | Some ErrWalletNotFound => 404
           | Some ErrInsufficientFunds => 409
           | Some ErrInvalidAmount => 400
           | Some _ => 500
           end
       ∧ (∀ n c s' e,
            (ProcessTransaction_send n c
               {| WalletID := id; OpType := OpType t0; Amount := Amount t0 |}
               s').1 ≠ Returned e)
       ∧ (∀ c rc db,
            (processTransactions_switch
               {| ctx := c;
                  t := {| WalletID := id; OpType := OpType t0;
                          Amount := Amount t0 |};
                  result := rc |} db).1 ≠ Some ErrInvalidOperation
            ∧ (processTransactions_switch
                 {| ctx := c;
                    t := {| WalletID := id; OpType := OpType t0;
                            Amount := Amount t0 |};
                    result := rc |} db).1 ≠ Some ErrInvalidAmount)).
Proof.
  intros id out. subst out. unfold handler.HandleTransaction. fold id.
  destruct (uuid_Parse id) eqn:Hid; simpl; [| left; eauto].
  destruct (handler.Decoded r) as [t0 |] eqn:Hdec; [| left; eauto].
  destruct (String.eqb (OpType t0) Deposit) eqn:Hd;
    destruct (String.eqb (OpType t0) Withdraw) eqn:Hw; simpl;
    try (left; by eauto).
  all: destruct (Z.leb_spec (Amount t0) 0) as [Ha | Ha]; [left; by eauto |].
  all: assert (OpType t0 = Deposit ∨ OpType t0 = Withdraw) as Hkind
    by (first [left; by apply String.eqb_eq | right; by apply String.eqb_eq]).
  all: right; exists t0; split; [done |]; split; [done |]; split; [done |];
    split; [done |]; split; [done |]; split;
    [by destruct (svc _ s).1 as [[] |] |]; split.
  all: try (intros n c s' e He; apply send_returned in He; simpl in He; lia).
  all: intros c rc db; by apply valid_kind_never_invalid.
Qed.

(** X17: a balance request through handler, service and repository.
    For the path [/api/v1/wallets/<id>]: when [<id>] is no UUID the
    answer is 400 and nothing is called; otherwise, when the query
    succeeds, the answer is 200 with the stored balance of [<id>], or
    404 when [<id>] has no row, and the table and the lanes are as
    before; when the query fails the answer is 500. *)
Theorem balance_request_through_the_layers
    (uuid_Parse : string → bool) (id : string) (fail_query : bool)
    (s : walletService) :
  let out := handler.HandleGetBalance uuid_Parse walletService
               (service_GetBalance fail_query)
               {| handler.Path := "/api/v1/wallets/" +:+ id;
                  handler.Decoded := None |} s in
  (uuid_Parse id = false →
     out = (handler.sendErrorResponse "Invalid wallet ID" 400, s))
  ∧ (uuid_Parse id = true →
     rows (repo out.2) = rows (repo s) ∧ queues out.2 = queues s
     ∧ (fail_query = true → handler.statusCode out.1 = 500)
     ∧ (fail_query = false →
        out.1 = match rows (repo s) !! id with
                | Some b => handler.sendSuccessResponse
                              (handler.IntData {[ "balance" := b ]})
                | None => handler.sendErrorResponse "Wallet not found" 404
                end)).
Proof.
  intros out. subst out. unfold handler.HandleGetBalance. simpl handler.Path.
  rewrite (TrimPrefix_app "/api/v1/wallets/" id).
  split; intros Hid; rewrite Hid; simpl; [done |].
  unfold service_GetBalance, repository.GetBalance, sbind, sret, record_call.
  simpl. destruct fail_query; simpl; [done |].
  destruct (rows (repo s) !! id); simpl; done.
Qed.

(** X18: a wallet made through the handler is found through the
    handler.  When the store inserts the row under a fresh id that is a
    UUID, [CreateWallet] answers 200 with that id, and the balance
    request for it that follows answers 200 with the balance 0. *)
Theorem created_wallet_is_served
    (uuid_Parse : string → bool) (id : string) (s : walletService) :
  rows (repo s) !! id = None → uuid_Parse id = true →
  let out := handler.CreateWallet walletService
               (service_CreateWallet InsertDone id) s in
  out.1 = handler.sendSuccessResponse (handler.StringData {[ "walletId" := id ]})
  ∧ (handler.HandleGetBalance uuid_Parse walletService
       (service_GetBalance false)
       {| handler.Path := "/api/v1/wallets/" +:+ id;
          handler.Decoded := None |} out.2).1
    = handler.sendSuccessResponse (handler.IntData {[ "balance" := 0 ]}).
Proof.
  intros Hfresh Hid. simpl.
  unfold handler.CreateWallet, service_CreateWallet, repository.CreateWallet,
    sbind, sret, record_call. simpl. rewrite Hfresh. simpl.
  split; [done |].
  unfold handler.HandleGetBalance. simpl handler.Path.
  rewrite (TrimPrefix_app "/api/v1/wallets/" id), Hid. simpl.
  unfold service_GetBalance, repository.GetBalance, sbind, sret, record_call.
  simpl. by rewrite lookup_insert_eq.
Qed.

Lemma created_wallet_is_served_witness :
  (handler.HandleGetBalance (λ id, (String.length id =? 36)%nat) walletService
     (service_GetBalance false)
     {| handler.Path :=
          "/api/v1/wallets/" +:+ "c6e5b8d0-7e9a-4a1b-9c3d-2f0b1e4d5c7a";
        handler.Decoded := None |}
     (handler.CreateWallet walletService
        (service_CreateWallet InsertDone "c6e5b8d0-7e9a-4a1b-9c3d-2f0b1e4d5c7a")
        service1).2).1
  = handler.sendSuccessResponse (handler.IntData {[ "balance" := 0 ]}).
Proof.
  refine (proj2 (created_wallet_is_served
                   (λ id, (String.length id =? 36)%nat)
                   "c6e5b8d0-7e9a-4a1b-9c3d-2f0b1e4d5c7a" service1 _ _)).
  - reflexivity.
  - reflexivity.
Defined.

(** The handler's tests, with a service that accepts every transaction. *)
Example handler_test_invalid_uuid :
  (handler.HandleTransaction (λ id, (String.length id =? 36)%nat)
     (λ _, "100") (λ _, "") unit (λ _ s, (None, s))
     {| handler.Path := "/api/v1/wallets/invalid-uuid/transactions";
        handler.Decoded := Some {| WalletID := ""; OpType := Deposit;
                                   Amount := 100 |} |} tt).1
  = handler.sendErrorResponse "Invalid wallet ID format" 400.
Proof. vm_compute. reflexivity. Qed.

Example handler_test_success :
  handler.statusCode
    (handler.HandleTransaction (λ id, (String.length id =? 36)%nat)
       (λ _, "100") (λ _, "") unit (λ _ s, (None, s))
       {| handler.Path :=
            "/api/v1/wallets/c6e5b8d0-7e9a-4a1b-9c3d-2f0b1e4d5c7a/transactions";
          handler.Decoded := Some {| WalletID := ""; OpType := Deposit;
                                     Amount := 100 |} |} tt).1
  = 200.
Proof. vm_compute. reflexivity. Qed.
